(** * Puzzle search: depth-first and breadth-first solvers, path-tree nodes

    A shallow embedding of [puzzle_tools.py] (the two solvers and the class
    [PuzzleNode]) and of [SudokuPuzzle.extensions] from [sudoku_puzzle.py],
    followed by the properties the specification states about them.

    Conventions of the embedding:
    - a Python call that may raise returns a [result]: [Ok v] or [Raise e];
    - the [while] loops of the solvers are unbounded, so they take a [fuel]
      (a bound on the number of evaluations of the loop condition) and
      return [None] when it runs out; [Found n] and [NotFound] abbreviate
      the two normal returns ([return PuzzleNode(ext)] and [return None]);
    - the visited set [seen] is a [gset string];
    - a Python list is a Rocq list in the same order, so [append] adds at
      the right end, [pop()] removes the right end and [pop(0)] the left. *)

From stdpp Require Import base gmap sets list strings pretty.

(** ** Python exceptions and results *)

Inductive exn : Type :=
| IndexError
| AttributeError
| UnboundLocalError
| ValueError.

Inductive result (A : Type) : Type :=
| Ok (a : A)
| Raise (e : exn).

Arguments Ok {A} a.
Arguments Raise {A} e.

(** Sequencing: the first exception raised ends the computation. *)
#[global] Instance result_bind : MBind result := fun A B k r =>
  match r with
  | Ok a => k a
  | Raise e => Raise e
  end.

#[global] Instance result_fmap : FMap result := fun A B f r =>
  match r with
  | Ok a => Ok (f a)
  | Raise e => Raise e
  end.

(** [list.pop()]: removes and returns the last item. *)
Definition pop {A : Type} (l : list A) : result (A * list A) :=
  match last l with
  | None => Raise IndexError
  | Some x => Ok (x, removelast l)
  end.

(** [list.pop(0)]: removes and returns the first item. *)
Definition pop0 {A : Type} (l : list A) : result (A * list A) :=
  match l with
  | [] => Raise IndexError
  | x :: r => Ok (x, r)
  end.

(** ** The puzzle contract

    [puzzle.py] declares the abstract class [Puzzle]; the solvers use four
    of its methods, and [PuzzleNode.__eq__] uses its [==]. A conforming
    puzzle type is pure: its methods return, and return the same value at
    each call. *)

Class Puzzle (P : Type) : Type := {
  is_solved : P -> bool;
  extensions : P -> list P;
  fail_fast : P -> bool;
  __str__ : P -> string;
  puzzle_eq : P -> P -> bool  (* [__eq__] *)
}.

(** ** class PuzzleNode *)

#[warnings="-register-all"]
Inductive PuzzleNode (P : Type) : Type :=
  mkPuzzleNode {
    puzzle : option P;
    children : list (PuzzleNode P);
    parent : option (PuzzleNode P)
  }.

Arguments mkPuzzleNode {P} puzzle children parent.
Arguments puzzle {P} _.
Arguments children {P} _.
Arguments parent {P} _.

(** [PuzzleNode.__init__(self, puzzle=None, children=None, parent=None)];
    [children[:]] copies the list, which is the identity on values. *)
Definition PuzzleNode_init {P : Type} (puzzle : option P)
    (children : option (list (PuzzleNode P)))
    (parent : option (PuzzleNode P)) : PuzzleNode P :=
  mkPuzzleNode puzzle
    (match children with
     | None => []
     | Some children => children
     end)
    parent.

(** [PuzzleNode(ext)], the only form the solvers build. *)
Definition PuzzleNode_of {P : Type} (ext : P) : PuzzleNode P :=
  PuzzleNode_init (Some ext) None None.

(** What the second operand of [==] can be:
    [other: Union[PuzzleNode, Any]]. *)
Inductive PyValue (P : Type) : Type :=
| VNode (n : PuzzleNode P)
| VOther.

Arguments VNode {P} n.
Arguments VOther {P}.

Section NodeEq.
Context {P : Type} {Pz : Puzzle P}.

(** [self.puzzle == other.puzzle] on [Optional[Puzzle]]. *)
Definition opt_puzzle_eq (a b : option P) : bool :=
  match a, b with
  | Some x, Some y => puzzle_eq x y
  | None, None => true
  | _, _ => false
  end.

(** [x in l] on a list of nodes is, in CPython (3.9 and later),
    [any(e is x or e == x for e in l)]: the item [e] of the list is the
    left operand of [==], and an item that is the very object [x] counts
    as equal without a call of [__eq__]. The embedding has values, not
    object identities; [e is x] implies [e == x] as soon as the puzzle's
    [==] is reflexive, which the theorems on node equality assume.

    [__eq__] calls itself on (child of self, child of other) in the
    middle conjunct and on (child of other, child of self) in the last
    one, so it does not descend on one fixed argument.
    [node_eq self other] is [self.__eq__(other)] and
    [node_eq_flip self other] is [other.__eq__(self)]; both descend on
    [self]. [node_eq_unfold] below restores the source's own equation. *)
Fixpoint node_eq (self other : PuzzleNode P) {struct self} : bool :=
  opt_puzzle_eq (puzzle self) (puzzle other)
  && forallb (fun x => existsb (fun e => node_eq e x) (children self))
       (children other)
  && forallb (fun x => existsb (fun e => node_eq_flip x e) (children other))
       (children self)
with node_eq_flip (self other : PuzzleNode P) {struct self} : bool :=
  opt_puzzle_eq (puzzle other) (puzzle self)
  && forallb (fun x => existsb (fun e => node_eq_flip x e) (children other))
       (children self)
  && forallb (fun x => existsb (fun e => node_eq e x) (children self))
       (children other).

(** [PuzzleNode.__eq__(self, other)]; [type(self) == type(other)] holds
    exactly when [other] is a [PuzzleNode] (the class has no subclass). *)
Definition PuzzleNode_eq (self : PuzzleNode P) (other : PyValue P) : bool :=
  match other with
  | VNode other => node_eq self other
  | VOther => false
  end.
End NodeEq.

(** ** The solvers *)

(** The two normal returns of a solver, inside the fuel's [option]. *)
Abbreviation Found n := (Some (Ok (Some n))).
Abbreviation NotFound := (Some (Ok None)).

(** The right operand of the third test of the filter: DFS compares the
    attribute [ext.extensions] (a bound method, never called) with [[]];
    BFS compares the value of the call [ext.extensions()]. *)
Inductive PyOperand (P : Type) : Type :=
| BoundMethod (self : P)
| ListValue (l : list P).

Arguments BoundMethod {P} self.
Arguments ListValue {P} l.

(** [v == []]: a list equals [[]] iff it is empty; a bound method is not
    a list and is never equal to one. *)
Definition eq_empty_list {P : Type} (v : PyOperand P) : bool :=
  match v with
  | ListValue [] => true
  | ListValue (_ :: _) => false
  | BoundMethod _ => false
  end.

(** What one pass through the body of the [for] loop does: go on with the
    next extension (after [continue] or after the [append]), or leave the
    function with [return PuzzleNode(ext)]. *)
Inductive flow (P : Type) : Type :=
| Next (seen : gset string) (new_puzzle : list (PuzzleNode P))
| Return (n : PuzzleNode P).

Arguments Next {P} seen new_puzzle.
Arguments Return {P} n.

Section Solvers.
Context {P : Type} {Pz : Puzzle P}.

(** *** depth_first_solve *)

(** The test of the second [if] (lines 31-32). *)
Definition dfs_skip (seen : gset string) (ext : P) : bool :=
  fail_fast ext
  || bool_decide (__str__ ext ∈ seen)
  || eq_empty_list (BoundMethod ext).

(** Body of the [for] loop (lines 29-37); [new_node.puzzle] is [ext]. *)
Definition dfs_body (seen : gset string) (new_puzzle : list (PuzzleNode P))
    (ext : P) : flow P :=
  if is_solved ext then Return (PuzzleNode_of ext)
  else if dfs_skip seen ext then Next seen new_puzzle
  else
    let new_node := PuzzleNode_of ext in
    Next (seen ∪ {[ __str__ ext ]}) (new_puzzle ++ [new_node]).

(** [for ext in item.puzzle.extensions(): ...] *)
Fixpoint dfs_for (exts : list P) (seen : gset string)
    (new_puzzle : list (PuzzleNode P)) : flow P :=
  match exts with
  | [] => Next seen new_puzzle
  | ext :: exts =>
    match dfs_body seen new_puzzle ext with
    | Return n => Return n
    | Next seen new_puzzle => dfs_for exts seen new_puzzle
    end
  end.

(** [while len(new_puzzle) > 0: ...] followed by [return None]. *)
Fixpoint dfs_while (fuel : nat) (seen : gset string)
    (new_puzzle : list (PuzzleNode P))
    : option (result (option (PuzzleNode P))) :=
  match fuel with
  | 0 => None
  | S fuel =>
    if 0 <? length new_puzzle then
      match pop new_puzzle with
      | Raise e => Some (Raise e)
      | Ok (item, new_puzzle) =>
        match puzzle item with
        | None => Some (Raise AttributeError)
        | Some p =>
          match dfs_for (extensions p) seen new_puzzle with
          | Return n => Found n
          | Next seen new_puzzle => dfs_while fuel seen new_puzzle
          end
        end
      end
    else NotFound
  end.

Definition depth_first_solve (fuel : nat) (puzzle : P)
    : option (result (option (PuzzleNode P))) :=
  let seen : gset string := ∅ in
  let new_puzzle := [PuzzleNode_of puzzle] in
  dfs_while fuel seen new_puzzle.

(** *** breadth_first_solve *)

(** The test of the second [if] (lines 57-58). *)
Definition bfs_skip (seen : gset string) (ext : P) : bool :=
  fail_fast ext
  || bool_decide (__str__ ext ∈ seen)
  || eq_empty_list (ListValue (extensions ext)).

(** Body of the [for] loop (lines 55-63). *)
Definition bfs_body (seen : gset string) (new_puzzle : list (PuzzleNode P))
    (ext : P) : flow P :=
  if is_solved ext then Return (PuzzleNode_of ext)
  else if bfs_skip seen ext then Next seen new_puzzle
  else
    let new_node := PuzzleNode_of ext in
    Next (seen ∪ {[ __str__ ext ]}) (new_puzzle ++ [new_node]).

Fixpoint bfs_for (exts : list P) (seen : gset string)
    (new_puzzle : list (PuzzleNode P)) : flow P :=
  match exts with
  | [] => Next seen new_puzzle
  | ext :: exts =>
    match bfs_body seen new_puzzle ext with
    | Return n => Return n
    | Next seen new_puzzle => bfs_for exts seen new_puzzle
    end
  end.

Fixpoint bfs_while (fuel : nat) (seen : gset string)
    (new_puzzle : list (PuzzleNode P))
    : option (result (option (PuzzleNode P))) :=
  match fuel with
  | 0 => None
  | S fuel =>
    if 0 <? length new_puzzle then
      match pop0 new_puzzle with
      | Raise e => Some (Raise e)
      | Ok (item, new_puzzle) =>
        match puzzle item with
        | None => Some (Raise AttributeError)
        | Some p =>
          match bfs_for (extensions p) seen new_puzzle with
          | Return n => Found n
          | Next seen new_puzzle => bfs_while fuel seen new_puzzle
          end
        end
      end
    else NotFound
  end.

Definition breadth_first_solve (fuel : nat) (puzzle : P)
    : option (result (option (PuzzleNode P))) :=
  let seen : gset string := ∅ in
  let new_puzzle := [PuzzleNode_of puzzle] in
  bfs_while fuel seen new_puzzle.
End Solvers.

(** ** One loop for both solvers

    The two solvers differ in the removal ([pop()] or [pop(0)]) and in the
    third test of the filter. [search_while] is the loop with both left
    open; [dfs_while_search] and [bfs_while_search] below show that each
    solver is an instance, so the invariants are proved once. [examined]
    runs the same loop and lists, in order, the states popped from the work
    collection (each is then expanded by [extensions]). *)

Section Search.
Context {P : Type} {Pz : Puzzle P}.
Variable popf :
  list (PuzzleNode P) -> result (PuzzleNode P * list (PuzzleNode P)).
Variable dead_end : P -> bool.

Definition search_skip (seen : gset string) (ext : P) : bool :=
  fail_fast ext || bool_decide (__str__ ext ∈ seen) || dead_end ext.

Definition search_body (seen : gset string)
    (new_puzzle : list (PuzzleNode P)) (ext : P) : flow P :=
  if is_solved ext then Return (PuzzleNode_of ext)
  else if search_skip seen ext then Next seen new_puzzle
  else Next (seen ∪ {[ __str__ ext ]}) (new_puzzle ++ [PuzzleNode_of ext]).

Fixpoint search_for (exts : list P) (seen : gset string)
    (new_puzzle : list (PuzzleNode P)) : flow P :=
  match exts with
  | [] => Next seen new_puzzle
  | ext :: exts =>
    match search_body seen new_puzzle ext with
    | Return n => Return n
    | Next seen new_puzzle => search_for exts seen new_puzzle
    end
  end.

Fixpoint search_while (fuel : nat) (seen : gset string)
    (new_puzzle : list (PuzzleNode P))
    : option (result (option (PuzzleNode P))) :=
  match fuel with
  | 0 => None
  | S fuel =>
    if 0 <? length new_puzzle then
      match popf new_puzzle with
      | Raise e => Some (Raise e)
      | Ok (item, new_puzzle) =>
        match puzzle item with
        | None => Some (Raise AttributeError)
        | Some p =>
          match search_for (extensions p) seen new_puzzle with
          | Return n => Found n
          | Next seen new_puzzle => search_while fuel seen new_puzzle
          end
        end
      end
    else NotFound
  end.

Fixpoint examined (fuel : nat) (seen : gset string)
    (new_puzzle : list (PuzzleNode P)) : list P :=
  match fuel with
  | 0 => []
  | S fuel =>
    if 0 <? length new_puzzle then
      match popf new_puzzle with
      | Raise e => []
      | Ok (item, new_puzzle) =>
        match puzzle item with
        | None => []
        | Some p =>
          p :: match search_for (extensions p) seen new_puzzle with
               | Return n => []
               | Next seen new_puzzle => examined fuel seen new_puzzle
               end
        end
      end
    else []
  end.
End Search.

Section Traces.
Context {P : Type} {Pz : Puzzle P}.

(** The states [depth_first_solve] pops and expands, in order. *)
Definition dfs_examined (fuel : nat) (puzzle : P) : list P :=
  examined pop (fun ext => eq_empty_list (BoundMethod ext)) fuel ∅
    [PuzzleNode_of puzzle].

(** The states [breadth_first_solve] pops and expands, in order. *)
Definition bfs_examined (fuel : nat) (puzzle : P) : list P :=
  examined pop0 (fun ext => eq_empty_list (ListValue (extensions ext)))
    fuel ∅ [PuzzleNode_of puzzle].

(** ** The graph of states *)

(** [reachable s p]: a finite chain of [extensions()] calls leads from
    [s] to [p] (the empty chain included). *)
Inductive reachable (s : P) : P -> Prop :=
| reach_init : reachable s s
| reach_ext p e : reachable s p -> e ∈ extensions p -> reachable s e.

(** [open_path p t]: a chain of at least one extension leads from [p]
    to [t], and no extension on it reports [fail_fast()]. *)
Inductive open_path : P -> P -> Prop :=
| open_last p t :
    t ∈ extensions p -> fail_fast t = false -> open_path p t
| open_cons p e t :
    e ∈ extensions p -> fail_fast e = false -> open_path e t ->
    open_path p t.

(** The same with the empty chain allowed. *)
Definition open_chain (s t : P) : Prop := s = t \/ open_path s t.

(** Either solver returning on [s]: a node or [None], not an exception
    and not a loop that goes on for ever. *)
Definition terminates (solve : nat -> P -> option (result (option (PuzzleNode P))))
    (s : P) : Prop :=
  ∃ fuel r, solve fuel s = Some (Ok r).

Definition finds_solution
    (solve : nat -> P -> option (result (option (PuzzleNode P))))
    (s : P) : Prop :=
  ∃ fuel n, solve fuel s = Found n.

(** The reachable graph of [s] is finite: a list holds every state. *)
Definition finite_reachable (s : P) : Prop :=
  ∃ univ : list P, ∀ p, reachable s p -> p ∈ univ.

(** Canonical strings are collision-free on the states reachable from
    [s] (a requirement of the puzzle contract). *)
Definition collision_free (s : P) : Prop :=
  ∀ p q, reachable s p -> reachable s q -> __str__ p = __str__ q -> p = q.

(** Acyclic modulo canonical string: two reachable states that lie on a
    common cycle and have equal canonical strings are the same state. *)
Definition acyclic_mod_str (s : P) : Prop :=
  ∀ p q, reachable s p -> reachable p q -> reachable q p ->
    __str__ p = __str__ q -> p = q.
End Traces.

(** ** Toy puzzles used as concrete inputs *)

(** The counter of the specification's scenario: states [0..N], one
    extension [n+1] unless [n = N], solved iff [n = N]. *)
Definition counter_puzzle (N : nat) : Puzzle nat := {|
  is_solved n := n =? N;
  extensions n := if n =? N then [] else [n + 1];
  fail_fast _ := false;
  __str__ n := pretty n;
  puzzle_eq := Nat.eqb
|}.


(** Two states that extend to each other; nothing is solved. *)
Definition cycle_puzzle : Puzzle bool := {|
  is_solved _ := false;
  extensions b := [negb b];
  fail_fast _ := false;
  __str__ b := if b then "T"%string else "F"%string;
  puzzle_eq := Bool.eqb
|}.

(** An unbounded puzzle: [0] extends to [2] and [1]; [2] extends to the
    solved state [4]; an odd [n] extends to [n + 2], for ever. *)
Definition odd_chain_puzzle : Puzzle nat := {|
  is_solved n := n =? 4;
  extensions n :=
    if n =? 0 then [2; 1]
    else if n =? 2 then [4]
    else if Nat.odd n then [n + 2]
    else [];
  fail_fast _ := false;
  __str__ n := pretty n;
  puzzle_eq := Nat.eqb
|}.

(** A puzzle that starts solved and has no move. *)
Definition presolved_puzzle : Puzzle unit := {|
  is_solved _ := true;
  extensions _ := [];
  fail_fast _ := false;
  __str__ _ := "solved"%string;
  puzzle_eq _ _ := true
|}.

(** Every state has two extensions, and every state reports
    [fail_fast()]; nothing is solved. *)
Definition hopeless_puzzle : Puzzle nat := {|
  is_solved _ := false;
  extensions n := [n + 1; n + 2];
  fail_fast _ := true;
  __str__ n := pretty n;
  puzzle_eq := Nat.eqb
|}.

(** [0] extends to [1], which is a dead end: not solved, no extension,
    and [fail_fast()] does not see it. *)
Definition dead_end_puzzle : Puzzle nat := {|
  is_solved _ := false;
  extensions n := if n =? 0 then [1] else [];
  fail_fast _ := false;
  __str__ n := pretty n;
  puzzle_eq := Nat.eqb
|}.

(** [0] extends to [1], [2] and [3]; [2] and [3] are solved. *)
Definition branching_puzzle : Puzzle nat := {|
  is_solved n := (n =? 2) || (n =? 3);
  extensions n := if n =? 0 then [1; 2; 3] else [];
  fail_fast _ := false;
  __str__ n := pretty n;
  puzzle_eq := Nat.eqb
|}.

(** A puzzle that breaks the contract on canonical strings: the states
    [1] and [2] print alike. [0] extends to both, [1] leads nowhere and
    [2] extends to the solved state [4]. *)
Definition colliding_puzzle : Puzzle nat := {|
  is_solved n := n =? 4;
  extensions n :=
    if n =? 0 then [1; 2]
    else if n =? 1 then [3]
    else if n =? 2 then [4]
    else [];
  fail_fast _ := false;
  __str__ n := if (n =? 1) || (n =? 2) then "x"%string else pretty n;
  puzzle_eq := Nat.eqb
|}.

(** Solutions at two depths: [3] below [1], and [5] below [4] below [2]. *)
Definition two_depths_puzzle : Puzzle nat := {|
  is_solved n := (n =? 3) || (n =? 5);
  extensions n :=
    if n =? 0 then [1; 2]
    else if n =? 1 then [3]
    else if n =? 2 then [4]
    else if n =? 4 then [5]
    else [];
  fail_fast _ := false;
  __str__ n := pretty n;
  puzzle_eq := Nat.eqb
|}.

(** A puzzle whose [==] is never true, not even on one state. *)
Definition never_equal_puzzle : Puzzle nat := {|
  is_solved _ := false;
  extensions _ := [];
  fail_fast _ := false;
  __str__ n := pretty n;
  puzzle_eq _ _ := false
|}.

(** A puzzle whose [==] is reflexive but not symmetric. *)
Definition one_way_puzzle : Puzzle nat := {|
  is_solved _ := false;
  extensions _ := [];
  fail_fast _ := false;
  __str__ n := pretty n;
  puzzle_eq := Nat.leb
|}.

(** Every state reports [fail_fast()], the solved state [1] included. *)
Definition unsound_puzzle : Puzzle nat := {|
  is_solved n := n =? 1;
  extensions n := [n + 1];
  fail_fast _ := true;
  __str__ n := pretty n;
  puzzle_eq := Nat.eqb
|}.

(** ** Statements of the specification, as it words them *)

Section AsStated.
Context {P : Type} {Pz : Puzzle P}.

(** Completeness modulo fail-fast, with no condition on the graph: a
    solved state at the end of an open path is enough for both solvers to
    return a solution. *)
Definition complete_as_stated (s : P) : Prop :=
  ∀ t, open_path s t -> is_solved t = true ->
    finds_solution depth_first_solve s
    ∧ finds_solution breadth_first_solve s.

(** No revisits: at any point of a run, the states examined so far have
    pairwise distinct canonical strings. *)
Definition no_revisit_as_stated (s : P) : Prop :=
  ∀ fuel,
    NoDup (__str__ <$> dfs_examined fuel s)
    ∧ NoDup (__str__ <$> bfs_examined fuel s).

(** Every extension pruned: when every generated extension reports
    [fail_fast()], both solvers return [None], with nothing said of
    [is_solved()]. *)
Definition all_pruned_as_stated (s : P) : Prop :=
  (∀ p e : P, e ∈ extensions p -> fail_fast e = true) ->
  extensions s ≠ [] ->
  ∀ fuel,
    depth_first_solve (S (S fuel)) s = NotFound
    ∧ breadth_first_solve (S (S fuel)) s = NotFound.

(** Node equality for every puzzle type: reordering the children gives
    an equal node. *)
Definition node_equality_as_stated : Prop :=
  ∀ (s : P) (a b : PuzzleNode P),
    PuzzleNode_eq (PuzzleNode_init (Some s) (Some [a; b]) None)
      (VNode (PuzzleNode_init (Some s) (Some [b; a]) None)) = true.
End AsStated.

(** ** SudokuPuzzle.extensions *)

Module Sudoku.

(** [_n], [_symbols], [_symbol_set] as set by [__init__]. *)
Record SudokuPuzzle : Type := mkSudokuPuzzle {
  _n : nat;
  _symbols : list (list string);
  _symbol_set : gset string
}.

(** Reading a local name: [UnboundLocalError] while it has no value. *)
Definition read_local {A : Type} (v : option A) : result A :=
  match v with
  | Some a => Ok a
  | None => Raise UnboundLocalError
  end.

(** [l[i]] for a non-negative [i]. *)
Definition item {A : Type} (l : list A) (i : nat) : result A :=
  match l !! i with
  | Some a => Ok a
  | None => Raise IndexError
  end.

(** [l.index(x)] *)
Fixpoint index (l : list string) (x : string) : result nat :=
  match l with
  | [] => Raise ValueError
  | y :: l => if bool_decide (y = x) then Ok 0 else S <$> index l x
  end.

(** Evaluating a list of fallible items from left to right. *)
Fixpoint sequence {A : Type} (l : list (result A)) : result (list A) :=
  match l with
  | [] => Ok []
  | r :: l => a ← r; (cons a <$> sequence l)
  end.

(** [round(n ** (1 / 2))]: the integer nearest to the square root (no
    square root of an integer lies halfway between two integers); exact
    as long as the floating-point root is, which covers every grid size
    that fits in memory. *)
Definition round_sqrt (n : nat) : nat :=
  let s := Nat.sqrt n in
  if n - s * s <=? s then s else s + 1.

Definition _row_set (self : SudokuPuzzle) (r : nat) : result (gset string) :=
  row ← item (_symbols self) r;
  Ok (list_to_set row).

Definition _column_set (self : SudokuPuzzle) (c : nat)
    : result (gset string) :=
  col ← sequence ((fun row => item row c) <$> _symbols self);
  Ok (list_to_set col).

(** [r // ss] and [c // ss] raise [ZeroDivisionError] when [ss] is 0; the
    grid sizes of the precondition ([n > 0]) give [ss > 0], and the
    embedding follows Rocq's total division there. *)
Definition _subsquare_set (self : SudokuPuzzle) (r c : nat)
    : result (gset string) :=
  let n := _n self in
  let symbols := _symbols self in
  let ss := round_sqrt n in
  let ul_row := (r / ss) * ss in
  let ul_col := (c / ss) * ss in
  subsquare_symbols ←
    sequence
      (i ← seq 0 ss;
       (fun j => row ← item symbols (ul_row + i); item row (ul_col + j))
         <$> seq 0 ss);
  Ok (list_to_set subsquare_symbols).

(** [any("*" in row for row in symbols)] *)
Definition any_star (symbols : list (list string)) : bool :=
  existsb (fun row => bool_decide ("*"%string ∈ row)) symbols.

(** [while "*" not in symbols[r]: r += 1], entered with [r] bound to the
    number of the first row of [rows] (the rows from [r] on): the loop
    ends at the first row that holds a ["*"], and [symbols[r]] raises
    [IndexError] once [r] is past the last row. *)
Fixpoint skip_full_rows (rows : list (list string)) (r : nat) : result nat :=
  match rows with
  | [] => Raise IndexError
  | row :: rows =>
    if negb (bool_decide ("*"%string ∈ row)) then skip_full_rows rows (r + 1)
    else Ok r
  end.

(** [SudokuPuzzle.extensions]. The name [r] is local to the function (it
    is assigned by [r += 1]) and nothing assigns it before the [while]
    condition reads it. The [for] loop runs over a set, in the order of
    [elements]. *)
Definition extensions (self : SudokuPuzzle) : result (list SudokuPuzzle) :=
  let symbols := _symbols self in
  let symbol_set := _symbol_set self in
  let n := _n self in
  let r : option nat := None in
  if negb (any_star symbols) then Ok []
  else
    r0 ← read_local r;
    r ← skip_full_rows (drop r0 symbols) r0;
    row ← item symbols r;
    c ← index row "*"%string;
    A ← _row_set self r;
    B ← _column_set self c;
    C ← _subsquare_set self r c;
    let allowed_symbols := _symbol_set self ∖ (A ∪ B ∪ C) in
    Ok ((fun symbol =>
           mkSudokuPuzzle n
             (take r symbols
              ++ [take c row ++ [symbol] ++ drop (c + 1) row]
              ++ drop (r + 1) symbols)
             symbol_set)
        <$> elements allowed_symbols).

(** The test of one position [(i, j)] in [is_solved]; [and] stops at the
    first comparison that is false, so the later sets are not computed. *)
Definition position_ok (self : SudokuPuzzle) (i j : nat) : result bool :=
  A ← _row_set self i;
  if bool_decide (A = _symbol_set self) then
    B ← _column_set self j;
    if bool_decide (B = _symbol_set self) then
      C ← _subsquare_set self i j;
      Ok (bool_decide (C = _symbol_set self))
    else Ok false
  else Ok false.

(** [SudokuPuzzle.is_solved]. The list comprehension is built whole
    before [all] looks at it; [(not any(...)) and ...] does not evaluate
    it when some row holds a ["*"]. *)
Definition is_solved (self : SudokuPuzzle) : result bool :=
  let n := _n self in
  let symbols := _symbols self in
  if negb (any_star symbols) then
    checks ←
      sequence (i ← seq 0 n; (fun j => position_ok self i j) <$> seq 0 n);
    Ok (forallb id checks)
  else Ok false.

(** The body of the two [for] loops of [fail_fast] at position [(i, j)]:
    [Ok true] is [return True], [Ok false] goes on to the next position. *)
Definition position_stuck (self : SudokuPuzzle) (i j : nat) : result bool :=
  row ← item (_symbols self) i;
  x ← item row j;
  if bool_decide (x = "*"%string) then
    A ← _row_set self i;
    B ← _column_set self j;
    C ← _subsquare_set self i j;
    let legal_symbols := _symbol_set self ∖ (A ∪ B ∪ C) in
    Ok (bool_decide (size legal_symbols = 0))
  else Ok false.

(** The positions in the order of the loops, up to the first
    [return True]. *)
Fixpoint first_stuck (self : SudokuPuzzle) (positions : list (nat * nat))
    : result bool :=
  match positions with
  | [] => Ok false
  | (i, j) :: positions =>
    match position_stuck self i j with
    | Raise e => Raise e
    | Ok true => Ok true
    | Ok false => first_stuck self positions
    end
  end.

(** [for i in range(n): for j in range(n)] *)
Definition positions (n : nat) : list (nat * nat) :=
  i ← seq 0 n; (fun j => (i, j)) <$> seq 0 n.

(** [SudokuPuzzle.fail_fast] *)
Definition fail_fast (self : SudokuPuzzle) : result bool :=
  first_stuck self (positions (_n self)).

(** The grids of the precondition of [__init__], for a size [n = k * k]:
    [n] rows of [n] symbols. *)
Definition well_formed (self : SudokuPuzzle) (k : nat) : Prop :=
  0 < k
  ∧ _n self = k * k
  ∧ length (_symbols self) = _n self
  ∧ Forall (fun row => length row = _n self) (_symbols self).

(** The symbol at row [i], column [j]. *)
Definition cell (self : SudokuPuzzle) (i j : nat) : option string :=
  match _symbols self !! i with
  | Some row => row !! j
  | None => None
  end.

End Sudoku.

(** ** The solvers over puzzle methods that can raise

    The solvers again, for puzzle types whose methods can raise (the
    methods of [SudokuPuzzle] do): each method returns a [result], an
    exception leaves the solver at once, and the tests joined by [or] are
    evaluated from left to right, up to the first that is true.
    [lift_solvers] below shows that on methods that never raise these are
    the solvers above. *)

Module Effectful.

Class Puzzle (P : Type) : Type := {
  is_solved : P -> result bool;
  extensions : P -> result (list P);
  fail_fast : P -> result bool;
  __str__ : P -> result string
}.

Section Solvers.
Context {P : Type} {Pz : Puzzle P}.

(** [ext.fail_fast() or ext.__str__() in seen or ext.extensions == []] *)
Definition dfs_skip (seen : gset string) (ext : P) : result bool :=
  pruned ← fail_fast ext;
  if (pruned : bool) then Ok true
  else
    s ← __str__ ext;
    if bool_decide (s ∈ seen) then Ok true
    else Ok (eq_empty_list (BoundMethod ext)).

(** [ext.fail_fast() or ext.__str__() in seen or ext.extensions() == []] *)
Definition bfs_skip (seen : gset string) (ext : P) : result bool :=
  pruned ← fail_fast ext;
  if (pruned : bool) then Ok true
  else
    s ← __str__ ext;
    if bool_decide (s ∈ seen) then Ok true
    else
      exts ← extensions ext;
      Ok (eq_empty_list (ListValue exts)).

(** The body of the [for] loop, for either test [skip]. *)
Definition body (skip : gset string -> P -> result bool)
    (seen : gset string) (new_puzzle : list (PuzzleNode P)) (ext : P)
    : result (flow P) :=
  solved ← is_solved ext;
  if (solved : bool) then Ok (Return (PuzzleNode_of ext))
  else
    skipped ← skip seen ext;
    if (skipped : bool) then Ok (Next seen new_puzzle)
    else
      let new_node := PuzzleNode_of ext in
      s ← __str__ ext;
      Ok (Next (seen ∪ {[ s ]}) (new_puzzle ++ [new_node])).

Fixpoint for_loop (skip : gset string -> P -> result bool) (exts : list P)
    (seen : gset string) (new_puzzle : list (PuzzleNode P))
    : result (flow P) :=
  match exts with
  | [] => Ok (Next seen new_puzzle)
  | ext :: exts =>
    match body skip seen new_puzzle ext with
    | Raise e => Raise e
    | Ok (Return n) => Ok (Return n)
    | Ok (Next seen new_puzzle) => for_loop skip exts seen new_puzzle
    end
  end.

(** The [while] loop, for either removal and either test. *)
Fixpoint while_loop
    (popf : list (PuzzleNode P) -> result (PuzzleNode P * list (PuzzleNode P)))
    (skip : gset string -> P -> result bool)
    (fuel : nat) (seen : gset string) (new_puzzle : list (PuzzleNode P))
    : option (result (option (PuzzleNode P))) :=
  match fuel with
  | 0 => None
  | S fuel =>
    if 0 <? length new_puzzle then
      match popf new_puzzle with
      | Raise e => Some (Raise e)
      | Ok (item, new_puzzle) =>
        match puzzle item with
        | None => Some (Raise AttributeError)
        | Some p =>
          match extensions p with
          | Raise e => Some (Raise e)
          | Ok exts =>
            match for_loop skip exts seen new_puzzle with
            | Raise e => Some (Raise e)
            | Ok (Return n) => Found n
            | Ok (Next seen new_puzzle) =>
              while_loop popf skip fuel seen new_puzzle
            end
          end
        end
      end
    else NotFound
  end.

Definition depth_first_solve (fuel : nat) (puzzle : P)
    : option (result (option (PuzzleNode P))) :=
  while_loop pop dfs_skip fuel ∅ [PuzzleNode_of puzzle].

Definition breadth_first_solve (fuel : nat) (puzzle : P)
    : option (result (option (PuzzleNode P))) :=
  while_loop pop0 bfs_skip fuel ∅ [PuzzleNode_of puzzle].
End Solvers.

End Effectful.

Section Raised.
Context {P : Type} {Pz : Effectful.Puzzle P}.

(** Some call of a puzzle method raises [e]. *)
Definition raised_by_method (e : exn) : Prop :=
  ∃ p : P,
    Effectful.is_solved p = Raise e
    ∨ Effectful.extensions p = Raise e
    ∨ Effectful.fail_fast p = Raise e
    ∨ Effectful.__str__ p = Raise e.

End Raised.

(** A puzzle whose methods never raise, seen as one whose methods can. *)
Definition lift {P : Type} (Pz : Puzzle P) : Effectful.Puzzle P := {|
  Effectful.is_solved p := Ok (is_solved p);
  Effectful.extensions p := Ok (extensions p);
  Effectful.fail_fast p := Ok (fail_fast p);
  Effectful.__str__ p := Ok (__str__ p)
|}.

(** [SudokuPuzzle] as a puzzle type. Its [__str__] is left open: the
    results on it hold for any. *)
Definition sudoku_puzzle (str : Sudoku.SudokuPuzzle -> result string)
    : Effectful.Puzzle Sudoku.SudokuPuzzle := {|
  Effectful.is_solved := Sudoku.is_solved;
  Effectful.extensions := Sudoku.extensions;
  Effectful.fail_fast := Sudoku.fail_fast;
  Effectful.__str__ := str
|}.

(** ** PuzzleNode.__str__ *)

(** ["\n"] *)
Definition newline : string := String (Ascii.ascii_of_nat 10) EmptyString.

Section NodeStr.
Context {P : Type} {Pz : Puzzle P}.

(** [str(self.puzzle)]: the puzzle's [__str__], or ["None"]. *)
Definition str_of_puzzle (p : option P) : string :=
  match p with
  | Some p => __str__ p
  | None => "None"%string
  end.

(** [PuzzleNode.__str__]:
    ["{}\n\n{}".format(self.puzzle, "\n".join([str(x) for x in self.children]))] *)
Fixpoint PuzzleNode_str (self : PuzzleNode P) : string :=
  (str_of_puzzle (puzzle self) ++ newline ++ newline
   ++ String.concat newline (map PuzzleNode_str (children self)))%string.

(** [is_path n ps]: [n] is the path tree of the chain of states [ps];
    each node but the last has the next as its only child. *)
Inductive is_path : PuzzleNode P -> list P -> Prop :=
| path_end p par : is_path (mkPuzzleNode (Some p) [] par) [p]
| path_step p par c ps :
    is_path c ps -> is_path (mkPuzzleNode (Some p) [c] par) (p :: ps).

(** The same tree with every [parent] cleared. *)
Fixpoint without_parents (n : PuzzleNode P) : PuzzleNode P :=
  mkPuzzleNode (puzzle n) (map without_parents (children n)) None.

(** A state reachable through extensions that do not report
    [fail_fast()] has a solved extension. *)
Definition open_solution (s : P) : Prop :=
  ∃ p e, open_chain s p ∧ e ∈ extensions p ∧ is_solved e = true.
End NodeStr.

(** ** Depth of a state *)

Section Depth.
Context {P : Type} {Pz : Puzzle P}.

(** [open_chain_n d s p]: a chain of exactly [d] extensions, none
    reporting [fail_fast()], leads from [s] to [p]. *)
Inductive open_chain_n (s : P) : nat -> P -> Prop :=
| open_chain_zero : open_chain_n s 0 s
| open_chain_succ d p e :
    open_chain_n s d p -> e ∈ extensions p -> fail_fast e = false ->
    open_chain_n s (S d) e.
End Depth.

(** ** Notions used by the proofs *)

(** What the invariants need of a removal: it takes one item out of a
    non-empty list and keeps the others. *)
Definition removal {A : Type} (popf : list A -> result (A * list A)) : Prop :=
  (∀ l x r, popf l = Ok (x, r) -> l ≡ₚ x :: r)
  ∧ (∀ l, 0 < length l -> ∃ x r, popf l = Ok (x, r)).

Section NodeInduction.
Context {P : Type}.
Variable Q : PuzzleNode P -> Prop.
Hypothesis Q_node : ∀ p cs par, Forall Q cs -> Q (mkPuzzleNode p cs par).

(** Induction on a node with the property available for every child. *)
Fixpoint PuzzleNode_children_ind (n : PuzzleNode P) : Q n :=
  match n with
  | mkPuzzleNode p cs par =>
    Q_node p cs par
      ((fix all (l : list (PuzzleNode P)) : Forall Q l :=
          match l with
          | [] => @List.Forall_nil _ Q
          | c :: l =>
            @List.Forall_cons _ Q c l (PuzzleNode_children_ind c) (all l)
          end) cs)
  end.
End NodeInduction.

Section Notions.
Context {P : Type} {Pz : Puzzle P}.

(** The third test of the filter, in each solver. *)
Definition dfs_dead_end (ext : P) : bool := eq_empty_list (BoundMethod ext).
Definition bfs_dead_end (ext : P) : bool :=
  eq_empty_list (ListValue (extensions ext)).

(** [wraps R n]: the node [n] was built as [PuzzleNode(p)] for a state
    [p] that satisfies [R]. *)
Definition wraps (R : P -> Prop) (n : PuzzleNode P) : Prop :=
  ∃ p, n = PuzzleNode_of p ∧ R p.

(** [explored dead_end s seen work expanded]: the states of [expanded] have been popped and
    expanded without a solved extension turning up; every string of
    [seen] belongs to a state that is expanded or waiting in [work]. *)
Definition explored (dead_end : P -> bool) (s : P) (seen : gset string) (work : list (PuzzleNode P))
    (expanded : list P) : Prop :=
  Forall (wraps (reachable s)) work
  ∧ (∀ p, p ∈ expanded ->
       reachable s p
       ∧ ∀ e, e ∈ extensions p ->
           is_solved e = false
           ∧ (fail_fast e = true ∨ dead_end e = true ∨ __str__ e ∈ seen))
  ∧ (∀ k, k ∈ seen ->
       ∃ p, __str__ p = k ∧ (p ∈ expanded ∨ PuzzleNode_of p ∈ work))
  ∧ (s ∈ expanded ∨ PuzzleNode_of s ∈ work).

(** The canonical string of the state a node wraps. *)
Definition node_str (n : PuzzleNode P) : string :=
  match puzzle n with
  | Some p => __str__ p
  | None => ""%string
  end.

(** [x in l] for a node [x] and a list of nodes [l]: some item [e] of
    [l] has [e == x]. *)
Definition node_in (x : PuzzleNode P) (l : list (PuzzleNode P)) : bool :=
  existsb (fun e => node_eq e x) l.
End Notions.

Section Levels.
Context {P : Type} {Pz : Puzzle P}.

(** The queue of [breadth_first_solve] holds the states of one depth [d]
    in front and states of depth [d + 1] behind them; every state of a
    smaller depth that has extensions is expanded, and so is every state
    of depth [d] that is not waiting in front. *)
Definition levels (s : P) (d : nat) (front back : list (PuzzleNode P))
    (expanded : list P) : Prop :=
  Forall (wraps (open_chain_n s d)) front
  ∧ Forall (wraps (open_chain_n s (S d))) back
  ∧ (front = [] -> back = [])
  ∧ ∀ d' y, open_chain_n s d' y -> extensions y ≠ [] ->
      (d' < d -> y ∈ expanded)
      ∧ (d' = d -> y ∈ expanded ∨ PuzzleNode_of y ∈ front).

End Levels.

(** * Properties *)

(** ** The removals *)

Lemma pop_snoc {A : Type} (l : list A) (x : A) : pop (l ++ [x]) = Ok (x, l).
Proof. unfold pop. by rewrite last_snoc, removelast_last. Qed.

Lemma pop_inv {A : Type} (l r : list A) (x : A) :
  pop l = Ok (x, r) -> l = r ++ [x].
Proof.
  destruct l as [|y l _] using rev_ind; [done|].
  rewrite pop_snoc. congruence.
Qed.

Lemma pop_nil {A : Type} : pop (@nil A) = Raise IndexError.
Proof. done. Qed.

Lemma pop0_inv {A : Type} (l r : list A) (x : A) :
  pop0 l = Ok (x, r) -> l = x :: r.
Proof. destruct l; simpl; congruence. Qed.


Lemma pop_removal {A : Type} : removal (@pop A).
Proof.
  split.
  - intros l x r ->%pop_inv. by rewrite Permutation_app_comm.
  - intros l Hl. destruct l as [|y l _] using rev_ind; [simpl in Hl; lia|].
    rewrite pop_snoc. eauto.
Qed.

Lemma pop0_removal {A : Type} : removal (@pop0 A).
Proof.
  split.
  - by intros l x r ->%pop0_inv.
  - intros [|y l] Hl; [simpl in Hl; lia|]. simpl. eauto.
Qed.

(** ** Each solver is an instance of the common loop *)

Section Instances.
Context {P : Type} {Pz : Puzzle P}.


Lemma dfs_for_search exts seen work :
  dfs_for exts seen work = search_for dfs_dead_end exts seen work.
Proof.
  revert seen work. induction exts as [|e exts IH]; intros seen work; [done|].
  simpl. change (dfs_body seen work e) with (search_body dfs_dead_end seen work e).
  destruct (search_body _ _ _ _); auto.
Qed.

Lemma bfs_for_search exts seen work :
  bfs_for exts seen work = search_for bfs_dead_end exts seen work.
Proof.
  revert seen work. induction exts as [|e exts IH]; intros seen work; [done|].
  simpl. change (bfs_body seen work e) with (search_body bfs_dead_end seen work e).
  destruct (search_body _ _ _ _); auto.
Qed.

Lemma dfs_while_search fuel seen work :
  dfs_while fuel seen work = search_while pop dfs_dead_end fuel seen work.
Proof.
  revert seen work. induction fuel as [|fuel IH]; intros seen work; [done|].
  simpl. destruct (0 <? length work); [|done].
  destruct (pop work) as [[item rest]|]; [|done].
  destruct (puzzle item); [|done].
  rewrite dfs_for_search. destruct (search_for _ _ _ _); auto.
Qed.

Lemma bfs_while_search fuel seen work :
  bfs_while fuel seen work = search_while pop0 bfs_dead_end fuel seen work.
Proof.
  revert seen work. induction fuel as [|fuel IH]; intros seen work; [done|].
  simpl. destruct (0 <? length work); [|done].
  destruct (pop0 work) as [[item rest]|]; [|done].
  destruct (puzzle item); [|done].
  rewrite bfs_for_search. destruct (search_for _ _ _ _); auto.
Qed.

Lemma bfs_dead_end_spec (ext : P) :
  bfs_dead_end ext = true <-> extensions ext = [].
Proof. unfold bfs_dead_end. simpl. destruct (extensions ext); naive_solver. Qed.

Lemma dfs_dead_end_spec (ext : P) : dfs_dead_end ext = false.
Proof. done. Qed.
End Instances.

(** ** The for loop *)

Section Loop.
Context {P : Type} {Pz : Puzzle P}.
Variable dead_end : P -> bool.

(** When the [for] loop runs to its end, the nodes appended wrap a
    selection [new] of the extensions, with fresh and pairwise distinct
    canonical strings, all added to [seen]; no extension is solved, and
    each is pruned, a dead end, or has its string in [seen]. *)
Lemma search_for_next exts seen work seen' work' :
  search_for dead_end exts seen work = Next seen' work' ->
  ∃ new : list P,
    work' = work ++ (PuzzleNode_of <$> new)
    ∧ seen' = seen ∪ list_to_set (__str__ <$> new)
    ∧ new ⊆ exts
    ∧ NoDup (__str__ <$> new)
    ∧ (∀ e, e ∈ new -> __str__ e ∉ seen)
    ∧ (∀ e, e ∈ exts ->
         is_solved e = false
         ∧ (fail_fast e = true ∨ dead_end e = true ∨ __str__ e ∈ seen')).
Proof.
  revert seen work. induction exts as [|e exts IH]; intros seen work Hfor.
  - simpl in Hfor. injection Hfor as <- <-. exists [].
    simpl. rewrite app_nil_r. split_and!; try done.
    + set_solver.
    + constructor.
    + intros e He. by apply elem_of_nil in He.
    + intros e He. by apply elem_of_nil in He.
  - simpl in Hfor. unfold search_body in Hfor.
    destruct (is_solved e) eqn:Hsolved; [done|].
    destruct (search_skip dead_end seen e) eqn:Hskip.
    + apply IH in Hfor as (new & -> & -> & Hsub & Hnd & Hfresh & Hall).
      exists new. split_and!; try done.
      * set_solver.
      * intros x [->|Hx]%elem_of_cons; [|by apply Hall].
        split; [done|]. unfold search_skip in Hskip.
        apply orb_true_iff in Hskip as [Hskip|Hskip]; [|by auto].
        apply orb_true_iff in Hskip as [Hskip|Hskip]; [by auto|].
        apply bool_decide_eq_true in Hskip. right; right. set_solver.
    + apply IH in Hfor as (new & -> & -> & Hsub & Hnd & Hfresh & Hall).
      unfold search_skip in Hskip.
      apply orb_false_iff in Hskip as [Hskip Hdead].
      apply orb_false_iff in Hskip as [Hff Hseen].
      apply bool_decide_eq_false in Hseen.
      exists (e :: new). split_and!.
      * by rewrite <- app_assoc.
      * simpl. set_solver.
      * set_solver.
      * simpl. constructor; [|done].
        intros (x & Hx & Hin)%list_elem_of_fmap.
        apply (Hfresh x Hin). rewrite <- Hx. set_solver.
      * intros x [->|Hx]%elem_of_cons; [done|].
        specialize (Hfresh x Hx). set_solver.
      * intros x [->|Hx]%elem_of_cons; [|by apply Hall].
        split; [done|]. right; right. set_solver.
Qed.

(** When the [for] loop returns, it returns a fresh node for the first
    solved extension. *)
Lemma search_for_return exts seen work n :
  search_for dead_end exts seen work = Return n ->
  ∃ pre e post,
    exts = pre ++ e :: post
    ∧ Forall (fun x => is_solved x = false) pre
    ∧ is_solved e = true
    ∧ n = PuzzleNode_of e.
Proof.
  revert seen work. induction exts as [|e exts IH]; intros seen work Hfor.
  - done.
  - simpl in Hfor. unfold search_body in Hfor.
    destruct (is_solved e) eqn:Hsolved.
    + injection Hfor as <-. exists [], e, exts. by split_and!.
    + destruct (search_skip dead_end seen e);
        apply IH in Hfor as (pre & x & post & -> & Hpre & Hx & ->);
        exists (e :: pre), x, post; split_and!; try done;
        by constructor.
Qed.

Lemma search_for_first_solved pre e post seen work :
  Forall (fun x => is_solved x = false) pre ->
  is_solved e = true ->
  search_for dead_end (pre ++ e :: post) seen work = Return (PuzzleNode_of e).
Proof.
  intros Hpre He. revert seen work.
  induction Hpre as [|x pre Hx _ IH]; intros seen work; simpl.
  - unfold search_body. by rewrite He.
  - unfold search_body. rewrite Hx.
    destruct (search_skip dead_end seen x); apply IH.
Qed.

Variable popf :
  list (PuzzleNode P) -> result (PuzzleNode P * list (PuzzleNode P)).

(** The loop does not depend on how much fuel is left over. *)
Lemma search_while_more fuel k seen work r :
  search_while popf dead_end fuel seen work = Some r ->
  search_while popf dead_end (fuel + k) seen work = Some r.
Proof.
  revert seen work. induction fuel as [|fuel IH]; intros seen work; [done|].
  simpl. destruct (0 <? length work); [|done].
  destruct (popf work) as [[item rest]|]; [|done].
  destruct (puzzle item); [|done].
  destruct (search_for _ _ _ _); auto.
Qed.

Lemma search_while_agree fuel1 fuel2 seen work r1 r2 :
  search_while popf dead_end fuel1 seen work = Some r1 ->
  search_while popf dead_end fuel2 seen work = Some r2 ->
  r1 = r2.
Proof.
  intros H1 H2.
  apply (search_while_more _ fuel2) in H1.
  apply (search_while_more _ fuel1) in H2.
  rewrite (Nat.add_comm fuel2 fuel1) in H2. congruence.
Qed.
End Loop.

(** ** Invariants of the while loop *)

Section Invariants.
Context {P : Type} {Pz : Puzzle P}.
Variable popf :
  list (PuzzleNode P) -> result (PuzzleNode P * list (PuzzleNode P)).
Variable dead_end : P -> bool.
Hypothesis popf_removal : removal popf.


Lemma popf_wraps R work item rest :
  Forall (wraps R) work -> popf work = Ok (item, rest) ->
  wraps R item ∧ Forall (wraps R) rest.
Proof.
  intros Hwork Hpop. apply popf_removal in Hpop.
  rewrite Hpop in Hwork. by apply Forall_cons in Hwork.
Qed.

Lemma wraps_new R work (new : list P) :
  Forall (wraps R) work -> (∀ e, e ∈ new -> R e) ->
  Forall (wraps R) (work ++ (PuzzleNode_of <$> new)).
Proof.
  intros Hwork Hnew. apply Forall_app. split; [done|].
  apply Forall_fmap, Forall_forall. intros e He. exists e. auto.
Qed.

(** Soundness of the loop: it raises nothing, and a node it returns
    wraps a solved extension of a reachable state. *)
Lemma search_while_sound s fuel seen work r :
  Forall (wraps (reachable s)) work ->
  search_while popf dead_end fuel seen work = Some r ->
  match r with
  | Raise _ => False
  | Ok None => True
  | Ok (Some n) =>
    ∃ p e, reachable s p ∧ e ∈ extensions p ∧ is_solved e = true
           ∧ n = PuzzleNode_of e
  end.
Proof.
  revert seen work. induction fuel as [|fuel IH]; intros seen work Hwork; [done|].
  simpl. destruct (0 <? length work) eqn:Hlen; [|by intros [= <-]].
  apply Nat.ltb_lt in Hlen.
  destruct (proj2 popf_removal work Hlen) as (item & rest & Hpop).
  rewrite Hpop.
  destruct (popf_wraps _ _ _ _ Hwork Hpop) as [(p & -> & Hp) Hrest].
  simpl. destruct (search_for dead_end (extensions p) seen rest) as [seen' work'|n] eqn:Hfor.
  - apply search_for_next in Hfor as (new & -> & -> & Hsub & _).
    apply IH. apply wraps_new; [done|].
    intros e He. apply (reach_ext _ p); [done|]. set_solver.
  - apply search_for_return in Hfor as (pre & e & post & Hexts & _ & He & ->).
    intros [= <-]. exists p, e. split_and!; try done.
    rewrite Hexts. set_solver.
Qed.

(** Termination: when the canonical strings of the reachable states lie
    in a finite set [U], each iteration either shortens the work list or
    moves a string of [U] into [seen]. *)
Lemma search_while_terminates s (U : gset string) fuel seen work :
  (∀ p, reachable s p -> __str__ p ∈ U) ->
  Forall (wraps (reachable s)) work ->
  seen ⊆ U ->
  length work + (size U - size seen) < fuel ->
  ∃ r, search_while popf dead_end fuel seen work = Some (Ok r).
Proof.
  intros HU. revert seen work.
  induction fuel as [|fuel IH]; intros seen work Hwork Hseen Hfuel; [lia|].
  simpl. destruct (0 <? length work) eqn:Hlen; [|by eauto].
  apply Nat.ltb_lt in Hlen.
  destruct (proj2 popf_removal work Hlen) as (item & rest & Hpop).
  rewrite Hpop.
  destruct (popf_wraps _ _ _ _ Hwork Hpop) as [(p & -> & Hp) Hrest].
  assert (length work = S (length rest)) as Hlenw.
  { apply popf_removal in Hpop. by rewrite Hpop. }
  simpl. destruct (search_for dead_end (extensions p) seen rest) as [seen' work'|n] eqn:Hfor;
    [|by eauto].
  apply search_for_next in Hfor as (new & -> & -> & Hsub & Hnd & Hfresh & _).
  assert (∀ e, e ∈ new -> reachable s e) as Hreach.
  { intros e He. apply (reach_ext _ p); [done|]. set_solver. }
  assert (seen ∪ list_to_set (__str__ <$> new) ⊆ U) as Hseen'.
  { apply union_subseteq. split; [done|].
    intros k (e & -> & He)%elem_of_list_to_set%list_elem_of_fmap. auto. }
  apply IH; [by apply wraps_new|done|].
  assert (size (seen ∪ list_to_set (__str__ <$> new))
          = size seen + length new) as Hsize.
  { rewrite size_union.
    - rewrite size_list_to_set by done. by rewrite length_fmap.
    - intros k Hk (e & -> & He)%elem_of_list_to_set%list_elem_of_fmap.
      by apply (Hfresh e). }
  apply subseteq_size in Hseen'. rewrite Hsize in *.
  rewrite length_app, length_fmap. lia.
Qed.
End Invariants.

(** ** Completeness of the loop *)

Section Completeness.
Context {P : Type} {Pz : Puzzle P}.
Variable popf :
  list (PuzzleNode P) -> result (PuzzleNode P * list (PuzzleNode P)).
Variable dead_end : P -> bool.
Hypothesis popf_removal : removal popf.
Hypothesis dead_end_no_extension : ∀ e, dead_end e = true -> extensions e = [].


Lemma PuzzleNode_of_inj (p q : P) : PuzzleNode_of p = PuzzleNode_of q -> p = q.
Proof. by intros [= ->]. Qed.

Lemma explored_step s seen work expanded p rest seen' work' :
  explored dead_end s seen work expanded ->
  popf work = Ok (PuzzleNode_of p, rest) ->
  search_for dead_end (extensions p) seen rest = Next seen' work' ->
  explored dead_end s seen' work' (p :: expanded).
Proof.
  intros (Hwork & Hdone & Hseen & Hs) Hpop Hfor.
  destruct (popf_wraps _ popf_removal _ _ _ _ Hwork Hpop)
    as [(p' & <-%PuzzleNode_of_inj & Hp) Hrest].
  apply popf_removal in Hpop.
  assert (∀ q, PuzzleNode_of q ∈ work ->
            q ∈ p :: expanded ∨ PuzzleNode_of q ∈ work') as Hmove.
  { intros q Hq. rewrite Hpop in Hq.
    apply elem_of_cons in Hq as [->%PuzzleNode_of_inj|Hq]; [set_solver|].
    right. apply search_for_next in Hfor as (new & -> & _). set_solver. }
  apply search_for_next in Hfor as (new & -> & -> & Hsub & _ & _ & Hall).
  split_and!.
  - apply wraps_new; [done|].
    intros e He. apply (reach_ext _ p); [done|]. set_solver.
  - intros q [->|Hq]%elem_of_cons; [by split|].
    destruct (Hdone q Hq) as [Hreach Hexts]. split; [done|].
    intros e He. destruct (Hexts e He) as [? Hwhy]. set_solver.
  - intros k [Hk|Hk]%elem_of_union.
    + destruct (Hseen k Hk) as (q & <- & [Hq|Hq]); exists q; [set_solver|].
      split; [done|]. destruct (Hmove q Hq); auto.
    + apply elem_of_list_to_set, list_elem_of_fmap in Hk as (e & -> & He).
      exists e. split; [done|]. right. set_solver.
  - destruct Hs as [Hs|Hs]; [set_solver|]. destruct (Hmove s Hs); auto.
Qed.

(** When the loop gives up, every state it was to explore is expanded. *)
Lemma search_while_not_found s fuel seen work expanded :
  explored dead_end s seen work expanded ->
  search_while popf dead_end fuel seen work = NotFound ->
  ∃ seen' expanded', explored dead_end s seen' [] expanded'.
Proof.
  revert seen work expanded.
  induction fuel as [|fuel IH]; intros seen work expanded Hinv; [done|].
  simpl. destruct (0 <? length work) eqn:Hlen.
  - apply Nat.ltb_lt in Hlen.
    destruct (proj2 popf_removal work Hlen) as (item & rest & Hpop).
    rewrite Hpop.
    destruct (popf_wraps _ popf_removal _ _ _ _ (proj1 Hinv) Hpop)
      as [(p & -> & Hp) Hrest].
    simpl. destruct (search_for dead_end (extensions p) seen rest)
      as [seen' work'|n] eqn:Hfor; [|done].
    apply IH with (expanded := p :: expanded). by eapply explored_step.
  - intros _. apply Nat.ltb_ge in Hlen. destruct work; [|simpl in Hlen; lia].
    eauto.
Qed.

(** Once everything is expanded, no open path from an expanded state ends
    in a solved state. *)
Lemma explored_all_unsolved s seen expanded p t :
  collision_free s ->
  explored dead_end s seen [] expanded ->
  p ∈ expanded -> open_path p t -> is_solved t = false.
Proof.
  intros Hinj (_ & Hdone & Hseen & _) Hp Hpath.
  induction Hpath as [p t Ht _|p e t He Hff Hpath IH].
  - by apply (Hdone p Hp).
  - destruct (Hdone p Hp) as [Hreach Hexts].
    destruct (Hexts e He) as [_ [Hwhy|[Hwhy|Hwhy]]]; [congruence| |].
    + apply dead_end_no_extension in Hwhy.
      destruct Hpath as [? ? Hin|? ? ? Hin]; rewrite Hwhy in Hin;
        by apply elem_of_nil in Hin.
    + destruct (Hseen _ Hwhy) as (q & Hstr & [Hq|Hq]);
        [|by apply elem_of_nil in Hq].
      assert (q = e) as ->.
      { apply Hinj; [by apply (Hdone q Hq)| |done].
        by apply (reach_ext _ p). }
      by apply IH.
Qed.

Lemma search_while_complete s (U : gset string) t :
  (∀ p, reachable s p -> __str__ p ∈ U) ->
  collision_free s ->
  open_path s t -> is_solved t = true ->
  ∃ n, search_while popf dead_end (size U + 2) ∅ [PuzzleNode_of s] = Found n.
Proof.
  intros HU Hinj Hpath Ht.
  assert (Forall (wraps (reachable s)) [PuzzleNode_of s]) as Hwork.
  { repeat constructor. exists s. split; [done|constructor]. }
  destruct (search_while_terminates popf dead_end popf_removal s U
              (size U + 2) ∅ [PuzzleNode_of s]) as [[n|] Hrun];
    [done|done|set_solver|simpl; lia|by eauto|].
  exfalso.
  apply (search_while_not_found s _ _ _ []) in Hrun as (seen' & expanded' & Hinv).
  - assert (s ∈ expanded') as Hs.
    { destruct Hinv as (_ & _ & _ & [Hs|Hs]); [done|by apply elem_of_nil in Hs]. }
    pose proof (explored_all_unsolved _ _ _ _ _ Hinj Hinv Hs Hpath). congruence.
  - split_and!; [done| | |].
    + intros p Hp. by apply elem_of_nil in Hp.
    + intros k Hk. by apply not_elem_of_empty in Hk.
    + right. set_solver.
Qed.
End Completeness.

(** ** No canonical string is pushed twice *)

Section Revisits.
Context {P : Type} {Pz : Puzzle P}.
Variable popf :
  list (PuzzleNode P) -> result (PuzzleNode P * list (PuzzleNode P)).
Variable dead_end : P -> bool.
Hypothesis popf_removal : removal popf.


Lemma node_str_new (new : list P) :
  node_str <$> (PuzzleNode_of <$> new) = __str__ <$> new.
Proof. rewrite <- list_fmap_compose. by apply list_fmap_ext. Qed.

(** From a work list whose strings are pairwise distinct and all in
    [seen], the states examined have pairwise distinct strings; each is a
    string of the work list or a string that was not yet in [seen]. *)
Lemma examined_distinct fuel seen work :
  NoDup (node_str <$> work) ->
  (∀ n, n ∈ work -> node_str n ∈ seen) ->
  NoDup (__str__ <$> examined popf dead_end fuel seen work)
  ∧ ∀ x, x ∈ examined popf dead_end fuel seen work ->
      __str__ x ∈ node_str <$> work ∨ __str__ x ∉ seen.
Proof.
  revert seen work.
  induction fuel as [|fuel IH]; intros seen work Hnd Hin; simpl.
  { split; [constructor|]. intros x Hx. by apply elem_of_nil in Hx. }
  assert (NoDup (@nil string) ∧
          ∀ x : P, x ∈ @nil P -> __str__ x ∈ node_str <$> work ∨ __str__ x ∉ seen)
    as Hnil.
  { split; [constructor|]. intros x Hx. by apply elem_of_nil in Hx. }
  destruct (0 <? length work); [|done].
  destruct (popf work) as [[item rest]|] eqn:Hpop; [|done].
  apply popf_removal in Hpop.
  destruct (puzzle item) as [p|] eqn:Hitem; [|done].
  assert (node_str item = __str__ p) as Hstr by (unfold node_str; by rewrite Hitem).
  rewrite Hpop in Hnd. simpl in Hnd. rewrite Hstr in Hnd.
  apply NoDup_cons in Hnd as [Hp Hrest].
  assert (__str__ p ∈ node_str <$> work) as Hpw.
  { rewrite Hpop. simpl. rewrite Hstr. set_solver. }
  assert (__str__ p ∈ seen) as Hps.
  { rewrite <- Hstr. apply Hin. rewrite Hpop. set_solver. }
  destruct (search_for dead_end (extensions p) seen rest) as [seen' work'|n] eqn:Hfor.
  - apply search_for_next in Hfor as (new & -> & -> & _ & Hndnew & Hfresh & _).
    destruct (IH (seen ∪ list_to_set (__str__ <$> new))
                (rest ++ (PuzzleNode_of <$> new))) as [IH1 IH2].
    + rewrite fmap_app, node_str_new. apply NoDup_app. split_and!; [done| |done].
      intros k (n & -> & Hn)%list_elem_of_fmap (e & Hk & He)%list_elem_of_fmap.
      apply (Hfresh e He). rewrite <- Hk. apply Hin. rewrite Hpop. set_solver.
    + intros n [Hn|Hn]%elem_of_app.
      * apply elem_of_union_l, Hin. rewrite Hpop. set_solver.
      * apply list_elem_of_fmap in Hn as (e & -> & He).
        apply elem_of_union_r, elem_of_list_to_set, list_elem_of_fmap.
        by exists e.
    + split.
      * simpl. constructor; [|done].
        intros (x & Hx & Hxin)%list_elem_of_fmap.
        destruct (IH2 x Hxin) as [Hcase|Hcase];
          [|apply Hcase, elem_of_union_l; congruence].
        rewrite fmap_app, node_str_new in Hcase.
        apply elem_of_app in Hcase as [Hcase|Hcase];
          [by rewrite <- Hx in Hcase|].
        apply list_elem_of_fmap in Hcase as (e & He & Hein).
        apply (Hfresh e Hein). congruence.
      * intros x [->|Hx]%elem_of_cons; [by left|].
        destruct (IH2 x Hx) as [Hcase|Hcase]; [|set_solver].
        rewrite fmap_app, node_str_new in Hcase.
        apply elem_of_app in Hcase as [Hcase|Hcase].
        -- left. rewrite Hpop. set_solver.
        -- apply list_elem_of_fmap in Hcase as (e & He & Hein).
           right. rewrite He. by apply Hfresh.
  - split.
    + simpl. apply NoDup_singleton.
    + intros x ->%list_elem_of_singleton. by left.
Qed.

(** A whole run: after the initial state, no canonical string is examined
    twice. *)
Lemma examined_tail_distinct fuel s :
  NoDup (__str__ <$> tail (examined popf dead_end fuel ∅ [PuzzleNode_of s])).
Proof.
  destruct fuel as [|fuel]; simpl; [constructor|].
  destruct (popf [PuzzleNode_of s]) as [[item rest]|] eqn:Hpop; [|constructor].
  apply popf_removal in Hpop.
  destruct (puzzle item) as [p|]; [|constructor]. simpl.
  assert (rest = []) as ->.
  { apply Permutation_length in Hpop. simpl in Hpop. destruct rest; [done|].
    simpl in Hpop. lia. }
  destruct (search_for dead_end (extensions p) ∅ []) as [seen' work'|n] eqn:Hfor;
    [|constructor].
  apply search_for_next in Hfor as (new & -> & -> & _ & Hnd & _).
  apply examined_distinct.
  - simpl. by rewrite node_str_new.
  - intros n (e & -> & He)%list_elem_of_fmap.
    apply elem_of_union_r, elem_of_list_to_set, list_elem_of_fmap. by exists e.
Qed.
End Revisits.

(** ** Node equality *)


Lemma forallb_ext_Forall {A : Type} (f g : A -> bool) (l : list A) :
  Forall (fun x => f x = g x) l -> forallb f l = forallb g l.
Proof. induction 1 as [|x l Hx _ IH]; simpl; congruence. Qed.

Lemma existsb_ext_Forall {A : Type} (f g : A -> bool) (l : list A) :
  Forall (fun x => f x = g x) l -> existsb f l = existsb g l.
Proof. induction 1 as [|x l Hx _ IH]; simpl; congruence. Qed.

Section NodeEqFacts.
Context {P : Type} {Pz : Puzzle P}.


Lemma node_eq_flip_both (a : PuzzleNode P) :
  ∀ b, node_eq_flip a b = node_eq b a ∧ node_eq_flip b a = node_eq a b.
Proof.
  induction a as [p cs par IH] using PuzzleNode_children_ind.
  rewrite Forall_forall in IH.
  intros [p' cs' par']. simpl. split.
  - f_equal; [f_equal|].
    + apply forallb_ext_Forall, Forall_forall. intros x Hx.
      apply existsb_ext_Forall, Forall_forall. intros e _.
      apply (proj1 (IH x Hx e)).
    + apply forallb_ext_Forall, Forall_forall. intros x _.
      apply existsb_ext_Forall, Forall_forall. intros e He.
      symmetry. apply (proj2 (IH e He x)).
  - f_equal; [f_equal|].
    + apply forallb_ext_Forall, Forall_forall. intros x _.
      apply existsb_ext_Forall, Forall_forall. intros e He.
      apply (proj2 (IH e He x)).
    + apply forallb_ext_Forall, Forall_forall. intros x Hx.
      apply existsb_ext_Forall, Forall_forall. intros e _.
      symmetry. apply (proj1 (IH x Hx e)).
Qed.

(** [node_eq_flip self other] is [other.__eq__(self)]. *)
Lemma node_eq_flip_eq (a b : PuzzleNode P) : node_eq_flip a b = node_eq b a.
Proof. apply node_eq_flip_both. Qed.

(** The equation of the source, lines 115-118. *)
Lemma node_eq_unfold (self other : PuzzleNode P) :
  node_eq self other =
    opt_puzzle_eq (puzzle self) (puzzle other)
    && forallb (fun x => node_in x (children self)) (children other)
    && forallb (fun x => node_in x (children other)) (children self).
Proof.
  destruct self as [p cs par], other as [p' cs' par']. simpl.
  f_equal. apply forallb_ext_Forall, Forall_forall. intros x _.
  apply existsb_ext_Forall, Forall_forall. intros e _. apply node_eq_flip_eq.
Qed.

Lemma node_in_spec (x : PuzzleNode P) (l : list (PuzzleNode P)) :
  node_in x l = true <-> ∃ e, e ∈ l ∧ node_eq e x = true.
Proof.
  unfold node_in. rewrite existsb_exists.
  split; intros (e & He & Heq); exists e; split; try done;
    by apply list_elem_of_In.
Qed.

Lemma node_eq_spec (self other : PuzzleNode P) :
  node_eq self other = true <->
    opt_puzzle_eq (puzzle self) (puzzle other) = true
    ∧ (∀ x, x ∈ children other ->
         ∃ e, e ∈ children self ∧ node_eq e x = true)
    ∧ (∀ x, x ∈ children self ->
         ∃ e, e ∈ children other ∧ node_eq e x = true).
Proof.
  rewrite node_eq_unfold, !andb_true_iff, !forallb_forall.
  setoid_rewrite node_in_spec. setoid_rewrite <- list_elem_of_In. tauto.
Qed.

Lemma node_eq_refl :
  (∀ p : P, puzzle_eq p p = true) -> ∀ n : PuzzleNode P, node_eq n n = true.
Proof.
  intros Hrefl n. induction n as [p cs par IH] using PuzzleNode_children_ind.
  rewrite Forall_forall in IH.
  apply node_eq_spec. simpl. split_and!.
  - destruct p; simpl; auto.
  - intros x Hx. exists x. split; [done|]. by apply IH.
  - intros x Hx. exists x. split; [done|]. by apply IH.
Qed.

Lemma opt_puzzle_eq_sym :
  (∀ p q : P, puzzle_eq p q = puzzle_eq q p) ->
  ∀ a b : option P, opt_puzzle_eq a b = opt_puzzle_eq b a.
Proof. intros Hsym [p|] [q|]; simpl; auto. Qed.

Lemma node_eq_sym :
  (∀ p q : P, puzzle_eq p q = puzzle_eq q p) ->
  ∀ a b : PuzzleNode P, node_eq a b = node_eq b a.
Proof.
  intros Hsym a b. rewrite (node_eq_unfold a b), (node_eq_unfold b a).
  rewrite (opt_puzzle_eq_sym Hsym (puzzle a) (puzzle b)).
  rewrite <- !andb_assoc. f_equal. apply andb_comm.
Qed.

(** The comparison of the wrapped states, in terms of the puzzle's
    [==]. *)
Lemma opt_puzzle_eq_true (a b : option P) :
  opt_puzzle_eq a b = true
  <-> match a, b with
      | Some x, Some y => puzzle_eq x y = true
      | None, None => True
      | _, _ => False
      end.
Proof. destruct a, b; simpl; naive_solver. Qed.
End NodeEqFacts.

(** ** The entry points *)

Section EntryPoints.
Context {P : Type} {Pz : Puzzle P}.

Lemma initial_work (s : P) : Forall (wraps (reachable s)) [PuzzleNode_of s].
Proof. repeat constructor. exists s. split; [done|constructor]. Qed.

Lemma dfs_while_step fuel seen work (p : P) :
  dfs_while (S fuel) seen (work ++ [PuzzleNode_of p]) =
    match dfs_for (extensions p) seen work with
    | Return n => Found n
    | Next seen' work' => dfs_while fuel seen' work'
    end.
Proof.
  simpl. rewrite pop_snoc, length_app. simpl.
  by replace (length work + 1) with (S (length work)) by lia.
Qed.

Lemma bfs_while_step fuel seen work (p : P) :
  bfs_while (S fuel) seen (PuzzleNode_of p :: work) =
    match bfs_for (extensions p) seen work with
    | Return n => Found n
    | Next seen' work' => bfs_while fuel seen' work'
    end.
Proof. done. Qed.

Lemma depth_first_solve_sound (s : P) fuel r :
  depth_first_solve fuel s = Some r ->
  match r with
  | Raise _ => False
  | Ok None => True
  | Ok (Some n) =>
    ∃ p e, reachable s p ∧ e ∈ extensions p ∧ is_solved e = true
           ∧ n = PuzzleNode_of e
  end.
Proof.
  unfold depth_first_solve. rewrite dfs_while_search.
  apply (search_while_sound _ _ pop_removal), initial_work.
Qed.

Lemma breadth_first_solve_sound (s : P) fuel r :
  breadth_first_solve fuel s = Some r ->
  match r with
  | Raise _ => False
  | Ok None => True
  | Ok (Some n) =>
    ∃ p e, reachable s p ∧ e ∈ extensions p ∧ is_solved e = true
           ∧ n = PuzzleNode_of e
  end.
Proof.
  unfold breadth_first_solve. rewrite bfs_while_search.
  apply (search_while_sound _ _ pop0_removal), initial_work.
Qed.

(** A returned node, whichever solver returns it. *)
Lemma found_node (s : P) fuel n :
  depth_first_solve fuel s = Found n ∨ breadth_first_solve fuel s = Found n ->
  ∃ p e, reachable s p ∧ e ∈ extensions p ∧ is_solved e = true
         ∧ n = PuzzleNode_of e.
Proof.
  intros [Hrun|Hrun].
  - exact (depth_first_solve_sound s fuel _ Hrun).
  - exact (breadth_first_solve_sound s fuel _ Hrun).
Qed.

(** Extensions that are all unsolved and all pruned leave the loop state
    as it was. *)
Lemma dfs_for_all_pruned exts seen (work : list (PuzzleNode P)) :
  Forall (fun e => is_solved e = false ∧ fail_fast e = true) exts ->
  dfs_for exts seen work = Next seen work.
Proof.
  induction 1 as [|e exts [Hs Hff] _ IH]; [done|].
  simpl. unfold dfs_body, dfs_skip. by rewrite Hs, Hff.
Qed.

Lemma bfs_for_all_pruned exts seen (work : list (PuzzleNode P)) :
  Forall (fun e => is_solved e = false ∧ fail_fast e = true) exts ->
  bfs_for exts seen work = Next seen work.
Proof.
  induction 1 as [|e exts [Hs Hff] _ IH]; [done|].
  simpl. unfold bfs_body, bfs_skip. by rewrite Hs, Hff.
Qed.

(** When the extensions of the initial state change nothing, both solvers
    stop at the second test of the loop condition. *)
Lemma nothing_pushed_not_found (s : P) fuel :
  Forall (fun e => is_solved e = false ∧ fail_fast e = true) (extensions s) ->
  depth_first_solve (S (S fuel)) s = NotFound
  ∧ breadth_first_solve (S (S fuel)) s = NotFound.
Proof.
  intros Hexts. unfold depth_first_solve, breadth_first_solve. split.
  - change [PuzzleNode_of s] with ([] ++ [PuzzleNode_of s]).
    rewrite dfs_while_step. by rewrite dfs_for_all_pruned.
  - rewrite bfs_while_step. by rewrite bfs_for_all_pruned.
Qed.

(** C1. Soundness of both entry points: a node that [depth_first_solve]
    or [breadth_first_solve] returns wraps a state that is solved and that
    a finite chain of [extensions()] calls reaches from the initial
    state. *)
Theorem solvers_sound (s : P) (fuel : nat) (n : PuzzleNode P) :
  depth_first_solve fuel s = Found n ∨ breadth_first_solve fuel s = Found n ->
  ∃ e, puzzle n = Some e ∧ is_solved e = true ∧ reachable s e.
Proof.
  intros (p & e & Hp & He & Hsolved & ->)%found_node.
  exists e. split_and!; [done|done|]. by apply (reach_ext _ p).
Qed.

(** C4. The initial state is never tested with [is_solved()]: a returned
    node wraps a state that some [extensions()] call produced, and an
    initial state without extensions gives [None] from both solvers,
    whatever its own [is_solved()] says. *)
Theorem initial_state_not_tested (s : P) :
  (∀ fuel n,
     depth_first_solve fuel s = Found n ∨ breadth_first_solve fuel s = Found n ->
     ∃ p e, reachable s p ∧ e ∈ extensions p ∧ puzzle n = Some e)
  ∧ (extensions s = [] ->
     ∀ fuel,
       depth_first_solve (S (S fuel)) s = NotFound
       ∧ breadth_first_solve (S (S fuel)) s = NotFound).
Proof.
  split.
  - intros fuel n (p & e & Hp & He & _ & ->)%found_node. by exists p, e.
  - intros Hexts fuel. apply nothing_pushed_not_found.
    rewrite Hexts. constructor.
Qed.

(** C7, amended. Finding no solution is the return value [None], and the
    solvers raise nothing of their own; for a puzzle type whose
    [fail_fast()] is sound (a state that reports it is not solved) and
    whose every generated extension reports [fail_fast()], both solvers
    return [None] although the initial state has extensions. *)
Theorem no_solution_is_None :
  (∀ (s : P) fuel e,
     depth_first_solve fuel s ≠ Some (Raise e)
     ∧ breadth_first_solve fuel s ≠ Some (Raise e))
  ∧ ((∀ p : P, fail_fast p = true -> is_solved p = false) ->
     (∀ p e : P, e ∈ extensions p -> fail_fast e = true) ->
     ∀ s : P, extensions s ≠ [] ->
       ∀ fuel,
         depth_first_solve (S (S fuel)) s = NotFound
         ∧ breadth_first_solve (S (S fuel)) s = NotFound).
Proof.
  split.
  - intros s fuel e. split; intros Hrun.
    + exact (depth_first_solve_sound s fuel _ Hrun).
    + exact (breadth_first_solve_sound s fuel _ Hrun).
  - intros Hsound Hff s _ fuel. apply nothing_pushed_not_found.
    apply Forall_forall. intros e He. split; [|by apply (Hff s)].
    by apply Hsound, (Hff s).
Qed.

(** C8. On success the solvers return a freshly built node, with no
    children and no parent, for the first solved extension in the order
    of [extensions()]: as soon as the node on top of the stack (at the
    front of the queue) has a solved extension, the first such extension
    is returned at once, whatever the later extensions, the rest of the
    work collection, the visited set, and the fuel left. *)
Theorem first_solved_extension_returned :
  (∀ (s : P) fuel n,
     depth_first_solve fuel s = Found n ∨ breadth_first_solve fuel s = Found n ->
     children n = [] ∧ parent n = None
     ∧ ∃ e, puzzle n = Some e ∧ is_solved e = true)
  ∧ (∀ (p : P) pre e post seen work fuel,
       extensions p = pre ++ e :: post ->
       Forall (fun x => is_solved x = false) pre ->
       is_solved e = true ->
       dfs_while (S fuel) seen (work ++ [PuzzleNode_of p])
         = Found (mkPuzzleNode (Some e) [] None)
       ∧ bfs_while (S fuel) seen (PuzzleNode_of p :: work)
         = Found (mkPuzzleNode (Some e) [] None)).
Proof.
  split.
  - intros s fuel n (p & e & _ & _ & Hsolved & ->)%found_node.
    split_and!; [done|done|]. by exists e.
  - intros p pre e post seen work fuel Hexts Hpre He. split.
    + rewrite dfs_while_step, dfs_for_search, Hexts.
      by rewrite search_for_first_solved.
    + rewrite bfs_while_step, bfs_for_search, Hexts.
      by rewrite search_for_first_solved.
Qed.
End EntryPoints.

(** ** Termination, completeness, revisits *)

Section FiniteGraphs.
Context {P : Type} {Pz : Puzzle P}.

(** The canonical strings of a list that holds every reachable state. *)
Lemma strings_of_universe (s : P) (univ : list P) :
  (∀ p, reachable s p -> p ∈ univ) ->
  ∀ p, reachable s p ->
    __str__ p ∈ (list_to_set (__str__ <$> univ) : gset string).
Proof.
  intros Huniv p Hp. apply elem_of_list_to_set, list_elem_of_fmap.
  exists p. auto.
Qed.

(** On a finite reachable graph both loops stop, with nothing more
    assumed of the canonical strings. *)
Lemma finite_graph_terminates (s : P) :
  finite_reachable s ->
  terminates depth_first_solve s ∧ terminates breadth_first_solve s.
Proof.
  intros [univ Huniv].
  pose proof (strings_of_universe s univ Huniv) as HU.
  set (U := list_to_set (__str__ <$> univ) : gset string) in HU.
  split; exists (size U + 2).
  - unfold depth_first_solve. rewrite dfs_while_search.
    apply (search_while_terminates _ _ pop_removal s U);
      [done|apply initial_work|set_solver|simpl; lia].
  - unfold breadth_first_solve. rewrite bfs_while_search.
    apply (search_while_terminates _ _ pop0_removal s U);
      [done|apply initial_work|set_solver|simpl; lia].
Qed.

(** C5. Termination on a finite reachable space: when the states
    reachable from the initial state are finitely many, and acyclic modulo
    canonical string, both solvers return (a node or [None]). *)
Theorem solvers_terminate (s : P) :
  finite_reachable s -> acyclic_mod_str s ->
  terminates depth_first_solve s ∧ terminates breadth_first_solve s.
Proof. intros Hfin _. by apply finite_graph_terminates. Qed.

(** C2, amended. Completeness modulo fail-fast on a finite graph: when the
    states reachable from [s] are finitely many and their canonical
    strings are collision-free, and a chain of at least one extension,
    none reporting [fail_fast()], leads from [s] to a solved state, both
    solvers return a solution node. *)
Theorem solvers_complete_on_finite_graph (s t : P) :
  finite_reachable s -> collision_free s ->
  open_path s t -> is_solved t = true ->
  finds_solution depth_first_solve s ∧ finds_solution breadth_first_solve s.
Proof.
  intros [univ Huniv] Hinj Hpath Ht.
  pose proof (strings_of_universe s univ Huniv) as HU.
  set (U := list_to_set (__str__ <$> univ) : gset string) in HU.
  split; exists (size U + 2).
  - unfold depth_first_solve. rewrite dfs_while_search.
    apply (search_while_complete _ _ pop_removal) with (t := t); try done.
  - unfold breadth_first_solve. rewrite bfs_while_search.
    apply (search_while_complete _ _ pop0_removal) with (t := t); try done.
    intros e. apply bfs_dead_end_spec.
Qed.

(** C6, amended. No canonical string is pushed onto the work collection
    twice: among the states examined after the initial one, no two have
    equal canonical strings. (The string of the initial state is not put
    in the visited set, so a state with that string can be examined once
    more.) *)
Theorem no_revisit_after_initial_state (s : P) (fuel : nat) :
  NoDup (__str__ <$> tail (dfs_examined fuel s))
  ∧ NoDup (__str__ <$> tail (bfs_examined fuel s)).
Proof.
  split.
  - apply (examined_tail_distinct _ _ pop_removal).
  - apply (examined_tail_distinct _ _ pop0_removal).
Qed.
End FiniteGraphs.

(** ** The toy puzzles *)

Lemma counter_reachable (N p : nat) :
  reachable (Pz := counter_puzzle N) 0 p -> p ≤ N.
Proof.
  induction 1 as [|p e _ IH He]; [lia|].
  simpl in He. destruct (Nat.eqb_spec p N) as [->|Hne].
  - by apply elem_of_nil in He.
  - apply list_elem_of_singleton in He. lia.
Qed.

Lemma counter_finite (N : nat) : finite_reachable (Pz := counter_puzzle N) 0.
Proof.
  exists (seq 0 (S N)). intros p Hp%counter_reachable.
  apply elem_of_seq. lia.
Qed.

Lemma counter_collision_free (N : nat) :
  collision_free (Pz := counter_puzzle N) 0.
Proof. intros p q _ _ Hstr. by apply (inj pretty). Qed.

Lemma counter_acyclic (N : nat) : acyclic_mod_str (Pz := counter_puzzle N) 0.
Proof. intros p q _ _ _ Hstr. by apply (inj pretty). Qed.

Lemma counter_open_path : open_path (Pz := counter_puzzle 5) 0 5.
Proof.
  apply (open_cons _ 1); [set_solver|done|].
  apply (open_cons _ 2); [set_solver|done|].
  apply (open_cons _ 3); [set_solver|done|].
  apply (open_cons _ 4); [set_solver|done|].
  apply open_last; [set_solver|done].
Qed.

Example counter_dfs :
  depth_first_solve (Pz := counter_puzzle 5) 10 0 = Found (PuzzleNode_of 5).
Proof. vm_compute. reflexivity. Qed.

Example counter_bfs :
  breadth_first_solve (Pz := counter_puzzle 5) 10 0 = Found (PuzzleNode_of 5).
Proof. vm_compute. reflexivity. Qed.

Lemma solvers_sound_witness :
  (depth_first_solve (Pz := counter_puzzle 5) 10 0 = Found (PuzzleNode_of 5)
   ∨ breadth_first_solve (Pz := counter_puzzle 5) 10 0
     = Found (PuzzleNode_of 5))
  ∧ ∃ e, puzzle (PuzzleNode_of 5) = Some e
         ∧ is_solved (Puzzle := counter_puzzle 5) e = true
         ∧ reachable (Pz := counter_puzzle 5) 0 e.
Proof.
  assert (depth_first_solve (Pz := counter_puzzle 5) 10 0
            = Found (PuzzleNode_of 5)
          ∨ breadth_first_solve (Pz := counter_puzzle 5) 10 0
            = Found (PuzzleNode_of 5)) as Hrun.
  { left. vm_compute. reflexivity. }
  split; [exact Hrun|].
  exact (solvers_sound (Pz := counter_puzzle 5) 0 10 (PuzzleNode_of 5) Hrun).
Defined.

Lemma solvers_terminate_witness :
  finite_reachable (Pz := counter_puzzle 5) 0
  ∧ acyclic_mod_str (Pz := counter_puzzle 5) 0
  ∧ terminates (depth_first_solve (Pz := counter_puzzle 5)) 0
  ∧ terminates (breadth_first_solve (Pz := counter_puzzle 5)) 0.
Proof.
  split; [apply counter_finite|]. split; [apply counter_acyclic|].
  exact (solvers_terminate (Pz := counter_puzzle 5) 0
           (counter_finite 5) (counter_acyclic 5)).
Defined.

Lemma solvers_complete_witness :
  finite_reachable (Pz := counter_puzzle 5) 0
  ∧ collision_free (Pz := counter_puzzle 5) 0
  ∧ open_path (Pz := counter_puzzle 5) 0 5
  ∧ is_solved (Puzzle := counter_puzzle 5) 5 = true
  ∧ finds_solution (depth_first_solve (Pz := counter_puzzle 5)) 0
  ∧ finds_solution (breadth_first_solve (Pz := counter_puzzle 5)) 0.
Proof.
  split; [apply counter_finite|]. split; [apply counter_collision_free|].
  split; [apply counter_open_path|]. split; [reflexivity|].
  exact (solvers_complete_on_finite_graph (Pz := counter_puzzle 5) 0 5
           (counter_finite 5) (counter_collision_free 5)
           counter_open_path eq_refl).
Defined.

Lemma initial_state_not_tested_witness :
  extensions (Puzzle := presolved_puzzle) () = []
  ∧ is_solved (Puzzle := presolved_puzzle) () = true
  ∧ depth_first_solve (Pz := presolved_puzzle) 2 () = NotFound
  ∧ breadth_first_solve (Pz := presolved_puzzle) 2 () = NotFound.
Proof.
  split; [reflexivity|]. split; [reflexivity|].
  exact (proj2 (initial_state_not_tested (Pz := presolved_puzzle) ())
           eq_refl 0).
Defined.

Lemma no_solution_is_None_witness :
  (∀ p, fail_fast (Puzzle := hopeless_puzzle) p = true ->
        is_solved (Puzzle := hopeless_puzzle) p = false)
  ∧ (∀ p e, e ∈ extensions (Puzzle := hopeless_puzzle) p ->
            fail_fast (Puzzle := hopeless_puzzle) e = true)
  ∧ extensions (Puzzle := hopeless_puzzle) 0 ≠ []
  ∧ depth_first_solve (Pz := hopeless_puzzle) 2 0 = NotFound
  ∧ breadth_first_solve (Pz := hopeless_puzzle) 2 0 = NotFound.
Proof.
  split; [reflexivity|]. split; [reflexivity|]. split; [discriminate|].
  apply (proj2 (no_solution_is_None (Pz := hopeless_puzzle))).
  - reflexivity.
  - reflexivity.
  - discriminate.
Defined.

(** C7, as stated, fails: [is_solved()] is tested before [fail_fast()],
    so an extension that is solved is returned even though it, like every
    other extension, reports [fail_fast()]. *)
Lemma pruned_but_solved_is_returned :
  ¬ all_pruned_as_stated (Pz := unsound_puzzle) 0.
Proof.
  intros Hclaim.
  destruct (Hclaim ltac:(reflexivity) ltac:(discriminate) 0) as [Hdfs _].
  vm_compute in Hdfs. discriminate.
Qed.

Example unsound_puzzle_runs :
  depth_first_solve (Pz := unsound_puzzle) 2 0 = Found (PuzzleNode_of 1)
  ∧ breadth_first_solve (Pz := unsound_puzzle) 2 0 = Found (PuzzleNode_of 1).
Proof. split; by vm_compute. Qed.

Lemma first_solved_extension_witness :
  extensions (Puzzle := branching_puzzle) 0 = [1] ++ 2 :: [3]
  ∧ Forall (fun x => is_solved (Puzzle := branching_puzzle) x = false) [1]
  ∧ is_solved (Puzzle := branching_puzzle) 2 = true
  ∧ dfs_while (Pz := branching_puzzle) 1 ∅ ([] ++ [PuzzleNode_of 0])
    = Found (mkPuzzleNode (Some 2) [] None)
  ∧ bfs_while (Pz := branching_puzzle) 1 ∅ (PuzzleNode_of 0 :: [])
    = Found (mkPuzzleNode (Some 2) [] None).
Proof.
  assert (Forall (fun x => is_solved (Puzzle := branching_puzzle) x = false) [1])
    as Hpre by (repeat constructor).
  split; [reflexivity|]. split; [exact Hpre|]. split; [reflexivity|].
  exact (proj2 (first_solved_extension_returned (Pz := branching_puzzle))
           0 [1] 2 [3] ∅ [] 0 eq_refl Hpre eq_refl).
Defined.

(** *** The unbounded puzzle: depth-first search never comes back *)

Lemma odd_chain_extensions (n : nat) :
  Nat.odd n = true -> extensions (Puzzle := odd_chain_puzzle) n = [n + 2].
Proof.
  intros Hodd. simpl.
  destruct (Nat.eqb_spec n 0) as [->|_]; [done|].
  destruct (Nat.eqb_spec n 2) as [->|_]; [done|].
  by rewrite Hodd.
Qed.

Lemma odd_chain_not_solved (n : nat) :
  Nat.odd n = true -> is_solved (Puzzle := odd_chain_puzzle) (n + 2) = false.
Proof.
  intros Hodd. simpl. apply Nat.eqb_neq. intros Hn.
  assert (n = 2) as -> by lia. done.
Qed.

(** With [2] at the bottom of the stack and an odd state on top, the loop
    pushes the next odd state and is back in the same situation. *)
Lemma odd_chain_dfs_runs fuel (n : nat) (seen : gset string) :
  Nat.odd n = true ->
  (∀ k, k ∈ seen -> ∃ m, m < n + 2 ∧ k = pretty m) ->
  dfs_while (Pz := odd_chain_puzzle) fuel seen
    [PuzzleNode_of 2; PuzzleNode_of n] = None.
Proof.
  revert n seen. induction fuel as [|fuel IH]; intros n seen Hodd Hseen; [done|].
  change [PuzzleNode_of 2; PuzzleNode_of n]
    with ([PuzzleNode_of 2] ++ [PuzzleNode_of n]).
  rewrite dfs_while_step, odd_chain_extensions by done.
  simpl dfs_for. unfold dfs_body, dfs_skip.
  rewrite odd_chain_not_solved by done.
  assert (__str__ (Puzzle := odd_chain_puzzle) (n + 2) ∉ seen) as Hfresh.
  { intros (m & Hm & Heq)%Hseen. apply (inj pretty) in Heq. lia. }
  rewrite (bool_decide_eq_false_2 _ Hfresh). simpl.
  apply IH.
  - rewrite Nat.odd_add. rewrite Hodd. done.
  - intros k [Hk|Hk]%elem_of_union.
    + destruct (Hseen k Hk) as (m & Hm & ->). exists m. split; [lia|done].
    + apply elem_of_singleton in Hk as ->. exists (n + 2). split; [lia|done].
Qed.

Lemma odd_chain_dfs_diverges fuel :
  depth_first_solve (Pz := odd_chain_puzzle) fuel 0 = None.
Proof.
  destruct fuel as [|fuel]; [done|].
  unfold depth_first_solve.
  change [PuzzleNode_of 0] with ([] ++ [PuzzleNode_of 0]).
  rewrite dfs_while_step.
  change (dfs_for (extensions (Puzzle := odd_chain_puzzle) 0) ∅ [])
    with (Next (P := nat) (∅ ∪ {[ pretty 2 ]} ∪ {[ pretty 1 ]})
            [PuzzleNode_of 2; PuzzleNode_of 1]).
  apply odd_chain_dfs_runs; [done|].
  intros k [[Hk|Hk]%elem_of_union|Hk]%elem_of_union.
  - by apply not_elem_of_empty in Hk.
  - apply elem_of_singleton in Hk as ->. exists 2. split; [lia|done].
  - apply elem_of_singleton in Hk as ->. exists 1. split; [lia|done].
Qed.

Lemma odd_chain_open_path : open_path (Pz := odd_chain_puzzle) 0 4.
Proof.
  apply (open_cons _ 2); [set_solver|done|].
  apply open_last; [set_solver|done].
Qed.

Lemma odd_chain_collision_free (s : nat) :
  collision_free (Pz := odd_chain_puzzle) s.
Proof. intros p q _ _ Hstr. by apply (inj pretty). Qed.

(** C2, as stated, fails: the unbounded puzzle has a solved state two
    extensions away from [0], no state reports [fail_fast()], canonical
    strings are collision-free, and [depth_first_solve] never returns. *)
Lemma completeness_fails_on_unbounded_graph :
  ¬ complete_as_stated (Pz := odd_chain_puzzle) 0.
Proof.
  intros Hclaim.
  destruct (Hclaim 4 odd_chain_open_path eq_refl) as [(fuel & n & Hrun) _].
  rewrite odd_chain_dfs_diverges in Hrun. discriminate.
Qed.

(** Breadth-first search does find the solution there. *)
Example odd_chain_bfs :
  breadth_first_solve (Pz := odd_chain_puzzle) 2 0 = Found (PuzzleNode_of 4).
Proof. vm_compute. reflexivity. Qed.

(** *** Why the amended statement asks for more than a finite graph *)

(** A solved initial state is not a solution the solvers can find. *)
Example presolved_not_found fuel :
  is_solved (Puzzle := presolved_puzzle) () = true
  ∧ depth_first_solve (Pz := presolved_puzzle) (S (S fuel)) () = NotFound
  ∧ breadth_first_solve (Pz := presolved_puzzle) (S (S fuel)) () = NotFound.
Proof. split; [done|]. by apply nothing_pushed_not_found. Qed.

(** With colliding canonical strings a solution on an open path is
    missed by both solvers. *)
Example collision_hides_solution :
  open_path (Pz := colliding_puzzle) 0 4
  ∧ is_solved (Puzzle := colliding_puzzle) 4 = true
  ∧ depth_first_solve (Pz := colliding_puzzle) 10 0 = NotFound
  ∧ breadth_first_solve (Pz := colliding_puzzle) 10 0 = NotFound.
Proof.
  split_and!; [|done|by vm_compute|by vm_compute].
  apply (open_cons _ 2); [set_solver|done|].
  apply open_last; [set_solver|done].
Qed.

(** *** The two-state cycle: the initial state is examined twice *)

Example cycle_dfs_examined :
  dfs_examined (Pz := cycle_puzzle) 4 false = [false; true; false].
Proof. vm_compute. reflexivity. Qed.

Example cycle_bfs_examined :
  bfs_examined (Pz := cycle_puzzle) 4 false = [false; true; false].
Proof. vm_compute. reflexivity. Qed.

Example cycle_runs_end :
  depth_first_solve (Pz := cycle_puzzle) 4 false = NotFound
  ∧ breadth_first_solve (Pz := cycle_puzzle) 4 false = NotFound.
Proof. split; by vm_compute. Qed.

(** C6, as stated, fails: on the two-state cycle both solvers pop and
    expand the initial state, then the other state, then a state with the
    canonical string of the initial state again. *)
Lemma initial_state_examined_twice :
  ¬ no_revisit_as_stated (Pz := cycle_puzzle) false.
Proof.
  intros Hclaim. destruct (Hclaim 4) as [Hdfs _].
  rewrite cycle_dfs_examined in Hdfs. simpl in Hdfs.
  apply NoDup_cons in Hdfs as [Hnotin _]. apply Hnotin. set_solver.
Qed.

(** *** The dead end: the two filters differ *)

Lemma dfs_skip_spec {P : Type} {Pz : Puzzle P} (seen : gset string) (ext : P) :
  dfs_skip seen ext = true <-> fail_fast ext = true ∨ __str__ ext ∈ seen.
Proof.
  unfold dfs_skip. simpl. rewrite orb_false_r, orb_true_iff.
  by rewrite bool_decide_eq_true.
Qed.

Lemma bfs_skip_spec {P : Type} {Pz : Puzzle P} (seen : gset string) (ext : P) :
  bfs_skip seen ext = true <->
    fail_fast ext = true ∨ __str__ ext ∈ seen ∨ extensions ext = [].
Proof.
  unfold bfs_skip. rewrite !orb_true_iff, bool_decide_eq_true.
  fold (bfs_dead_end ext). rewrite bfs_dead_end_spec. tauto.
Qed.

(** C3, at the failing input. The extension [1] of the dead-end puzzle is
    not solved, not pruned, not seen, and has no extension:
    [breadth_first_solve] skips it, [depth_first_solve] adds its string to
    the visited set, pushes it, and later pops and expands it. *)
Theorem dfs_keeps_dead_end :
  is_solved (Puzzle := dead_end_puzzle) 1 = false
  ∧ fail_fast (Puzzle := dead_end_puzzle) 1 = false
  ∧ extensions (Puzzle := dead_end_puzzle) 1 = []
  ∧ bfs_body (Pz := dead_end_puzzle) ∅ [] 1 = Next ∅ []
  ∧ dfs_body (Pz := dead_end_puzzle) ∅ [] 1
    = Next (∅ ∪ {[ "1"%string ]}) [PuzzleNode_of 1]
  ∧ bfs_examined (Pz := dead_end_puzzle) 3 0 = [0]
  ∧ dfs_examined (Pz := dead_end_puzzle) 3 0 = [0; 1].
Proof. split_and!; by vm_compute. Qed.

(** ** PuzzleNode.__eq__ *)

Section NodeEquality.
Context {P : Type} {Pz : Puzzle P}.

(** C9, amended. For a puzzle type whose [==] is reflexive and
    symmetric, node equality ignores the order and the multiplicity of
    the children and requires equal wrapped states:
    [PuzzleNode(s, [a, b])] equals [PuzzleNode(s, [b, a])] and
    [PuzzleNode(s, [a, a])] equals [PuzzleNode(s, [a])], while
    [PuzzleNode(s, [a, b])] does not equal [PuzzleNode(s, [a])] when [b]
    is not equal to [a], and two nodes whose states are not equal are
    not equal; in general [self == other] iff [other] is a node, the
    wrapped states are equal by the puzzle's [==] (or both absent), and
    every child of each node is equal to some child of the other. *)
Theorem node_equality :
  (∀ p : P, puzzle_eq p p = true) ->
  (∀ p q : P, puzzle_eq p q = puzzle_eq q p) ->
  (∀ (s : P) a b,
     PuzzleNode_eq (PuzzleNode_init (Some s) (Some [a; b]) None)
       (VNode (PuzzleNode_init (Some s) (Some [b; a]) None)) = true)
  ∧ (∀ (s : P) a,
       PuzzleNode_eq (PuzzleNode_init (Some s) (Some [a; a]) None)
         (VNode (PuzzleNode_init (Some s) (Some [a]) None)) = true)
  ∧ (∀ (s : P) a b,
       PuzzleNode_eq b (VNode a) = false ->
       PuzzleNode_eq (PuzzleNode_init (Some s) (Some [a; b]) None)
         (VNode (PuzzleNode_init (Some s) (Some [a]) None)) = false)
  ∧ (∀ (s t : P) cs cs' par par',
       puzzle_eq s t = false ->
       PuzzleNode_eq (PuzzleNode_init (Some s) cs par)
         (VNode (PuzzleNode_init (Some t) cs' par')) = false)
  ∧ (∀ (self : PuzzleNode P) (other : PyValue P),
       PuzzleNode_eq self other = true <->
       ∃ o, other = VNode o
            ∧ match puzzle self, puzzle o with
              | Some x, Some y => puzzle_eq x y = true
              | None, None => True
              | _, _ => False
              end
            ∧ (∀ x, x ∈ children o ->
                 ∃ e, e ∈ children self ∧ PuzzleNode_eq e (VNode x) = true)
            ∧ (∀ x, x ∈ children self ->
                 ∃ e, e ∈ children o ∧ PuzzleNode_eq e (VNode x) = true)).
Proof.
  intros Hrefl Hsym. pose proof (node_eq_refl Hrefl) as Hnode.
  unfold PuzzleNode_eq. split_and!.
  - intros s a b. apply node_eq_spec. simpl. split_and!; [done| |].
    + intros x Hx. exists x. split; [|done].
      apply elem_of_cons in Hx as [->|Hx%list_elem_of_singleton].
      * apply list_elem_of_further, list_elem_of_here.
      * subst. apply list_elem_of_here.
    + intros x Hx. exists x. split; [|done].
      apply elem_of_cons in Hx as [->|Hx%list_elem_of_singleton].
      * apply list_elem_of_further, list_elem_of_here.
      * subst. apply list_elem_of_here.
  - intros s a. apply node_eq_spec. simpl. split_and!; [done| |].
    + intros x Hx. exists x. split; [|done].
      by apply list_elem_of_further.
    + intros x Hx. exists a. split; [apply list_elem_of_here|].
      apply elem_of_cons in Hx as [->|Hx%list_elem_of_singleton];
        subst; done.
  - intros s a b Hne. apply not_true_iff_false.
    intros (_ & _ & Hself)%node_eq_spec. simpl in Hself.
    destruct (Hself b) as (e & ->%list_elem_of_singleton & Heq).
    { apply list_elem_of_further, list_elem_of_here. }
    rewrite (node_eq_sym Hsym) in Heq. congruence.
  - intros s t cs cs' par par' Hne. apply not_true_iff_false.
    intros (Hstate & _)%node_eq_spec. simpl in Hstate. congruence.
  - intros self other. destruct other as [o|].
    + rewrite node_eq_spec, opt_puzzle_eq_true. split.
      * intros Heq. by exists o.
      * by intros (o' & [= <-] & Heq).
    + split; [done|]. by intros (o & [=] & _).
Qed.
End NodeEquality.

Lemma node_equality_witness :
  (∀ p, puzzle_eq (Puzzle := counter_puzzle 5) p p = true)
  ∧ (∀ p q, puzzle_eq (Puzzle := counter_puzzle 5) p q
            = puzzle_eq (Puzzle := counter_puzzle 5) q p)
  ∧ PuzzleNode_eq (Pz := counter_puzzle 5)
      (PuzzleNode_init (Some 0) (Some [PuzzleNode_of 1; PuzzleNode_of 2]) None)
      (VNode
         (PuzzleNode_init (Some 0) (Some [PuzzleNode_of 2; PuzzleNode_of 1])
            None))
    = true.
Proof.
  assert (∀ p, puzzle_eq (Puzzle := counter_puzzle 5) p p = true) as Hrefl.
  { intros p. apply Nat.eqb_refl. }
  assert (∀ p q, puzzle_eq (Puzzle := counter_puzzle 5) p q
                 = puzzle_eq (Puzzle := counter_puzzle 5) q p) as Hsym.
  { intros p q. apply Nat.eqb_sym. }
  split; [exact Hrefl|]. split; [exact Hsym|].
  exact (proj1 (node_equality (Pz := counter_puzzle 5) Hrefl Hsym)
           0 (PuzzleNode_of 1) (PuzzleNode_of 2)).
Defined.

(** C9, as stated, fails: for a puzzle type whose [==] is not reflexive
    [self.puzzle == other.puzzle] is false on the same state, and
    [PuzzleNode(s, [a, b])] does not equal [PuzzleNode(s, [b, a])]. *)
Lemma node_equality_needs_reflexive :
  ¬ node_equality_as_stated (Pz := never_equal_puzzle).
Proof.
  intros Hclaim.
  specialize (Hclaim 0 (PuzzleNode_of 1) (PuzzleNode_of 2)).
  vm_compute in Hclaim. discriminate.
Qed.

(** With a [==] that is reflexive but not symmetric, [b == a] can be
    false while [b in [a]] holds, through [a == b]: then
    [PuzzleNode(s, [a, b])] equals [PuzzleNode(s, [a])]. *)
Example node_equality_needs_symmetric :
  PuzzleNode_eq (Pz := one_way_puzzle) (PuzzleNode_of 1) (VNode (PuzzleNode_of 0))
  = false
  ∧ PuzzleNode_eq (Pz := one_way_puzzle)
      (PuzzleNode_init (Some 0) (Some [PuzzleNode_of 0; PuzzleNode_of 1]) None)
      (VNode (PuzzleNode_init (Some 0) (Some [PuzzleNode_of 0]) None))
    = true.
Proof. split; by vm_compute. Qed.

Example node_equality_examples :
  PuzzleNode_eq (Pz := counter_puzzle 5)
    (PuzzleNode_init (Some 0) (Some [PuzzleNode_of 1; PuzzleNode_of 2]) None)
    (VNode (PuzzleNode_init (Some 0) (Some [PuzzleNode_of 1]) None))
  = false
  ∧ PuzzleNode_eq (Pz := counter_puzzle 5)
      (PuzzleNode_init (Some 0) (Some [PuzzleNode_of 1]) None)
      (VNode (PuzzleNode_init (Some 3) (Some [PuzzleNode_of 1]) None))
    = false
  ∧ PuzzleNode_eq (Pz := counter_puzzle 5) (PuzzleNode_of 0) VOther = false.
Proof. split_and!; by vm_compute. Qed.

(** ** SudokuPuzzle.extensions *)

Lemma any_star_spec (symbols : list (list string)) :
  Sudoku.any_star symbols = true
  <-> ∃ row, row ∈ symbols ∧ "*"%string ∈ row.
Proof.
  unfold Sudoku.any_star. rewrite existsb_exists.
  split; intros (row & Hrow & Hstar); exists row.
  - split; [by apply list_elem_of_In|by apply bool_decide_eq_true in Hstar].
  - split; [by apply list_elem_of_In|by apply bool_decide_eq_true].
Qed.

(** C10. On a grid with at least one empty cell ["*"], [extensions()]
    returns no value: it fails with [UnboundLocalError], at the read of
    the local [r] in the [while] condition. It returns normally only on a
    grid without empty cell, and then returns the empty list. *)
Theorem sudoku_extensions_unbound_local (self : Sudoku.SudokuPuzzle) :
  ((∃ row, row ∈ Sudoku._symbols self ∧ "*"%string ∈ row) ->
   Sudoku.extensions self = Raise UnboundLocalError)
  ∧ (∀ l, Sudoku.extensions self = Ok l ->
       l = [] ∧ ∀ row, row ∈ Sudoku._symbols self -> "*"%string ∉ row)
  ∧ ((∀ row, row ∈ Sudoku._symbols self -> "*"%string ∉ row) ->
     Sudoku.extensions self = Ok []).
Proof.
  unfold Sudoku.extensions.
  destruct (Sudoku.any_star (Sudoku._symbols self)) eqn:Hstar; simpl.
  - split_and!.
    + done.
    + done.
    + intros Hnone. apply any_star_spec in Hstar as (row & Hrow & Hin).
      by destruct (Hnone row Hrow).
  - split_and!.
    + intros Hsome%any_star_spec. congruence.
    + intros l [= <-]. split; [done|]. intros row Hrow Hin.
      assert (Sudoku.any_star (Sudoku._symbols self) = true) as Habs.
      { apply any_star_spec. by exists row. }
      congruence.
    + done.
Qed.

(** The grid of the docstring of [extensions]: one empty cell. *)
Definition doctest_grid : Sudoku.SudokuPuzzle :=
  Sudoku.mkSudokuPuzzle 4
    [["A"; "B"; "C"; "D"]; ["C"; "D"; "A"; "B"];
     ["B"; "A"; "D"; "C"]; ["D"; "C"; "B"; "*"]]%string
    (list_to_set ["A"; "B"; "C"; "D"]%string).

Lemma sudoku_extensions_witness :
  (∃ row, row ∈ Sudoku._symbols doctest_grid ∧ "*"%string ∈ row)
  ∧ Sudoku.extensions doctest_grid = Raise UnboundLocalError.
Proof.
  assert (∃ row, row ∈ Sudoku._symbols doctest_grid ∧ "*"%string ∈ row)
    as Hstar.
  { exists ["D"; "C"; "B"; "*"]%string. split.
    - simpl. do 3 apply list_elem_of_further. apply list_elem_of_here.
    - do 3 apply list_elem_of_further. apply list_elem_of_here. }
  split; [exact Hstar|].
  exact (proj1 (sudoku_extensions_unbound_local doctest_grid) Hstar).
Defined.

(** * Further properties *)

(** ** How many states a run examines *)

Lemma size_list_to_set_le (l : list string) :
  size (list_to_set l : gset string) ≤ length l.
Proof.
  induction l as [|x l IH].
  - by rewrite list_to_set_nil, size_empty.
  - rewrite list_to_set_cons, size_union_alt, size_singleton. simpl.
    assert (size (list_to_set l ∖ {[x]} : gset string)
            ≤ size (list_to_set l : gset string)) as Hle.
    { apply subseteq_size. set_solver. }
    lia.
Qed.

Section Bound.
Context {P : Type} {Pz : Puzzle P}.
Variable popf :
  list (PuzzleNode P) -> result (PuzzleNode P * list (PuzzleNode P)).
Variable dead_end : P -> bool.
Hypothesis popf_removal : removal popf.

(** The measure of the termination proof bounds the number of states
    popped, whatever the fuel. *)
Lemma examined_length s (U : gset string) fuel seen work :
  (∀ p, reachable s p -> __str__ p ∈ U) ->
  Forall (wraps (reachable s)) work ->
  seen ⊆ U ->
  length (examined popf dead_end fuel seen work)
    ≤ length work + (size U - size seen).
Proof.
  intros HU. revert seen work.
  induction fuel as [|fuel IH]; intros seen work Hwork Hseen; simpl; [lia|].
  destruct (0 <? length work) eqn:Hlen; [|simpl; lia].
  apply Nat.ltb_lt in Hlen.
  destruct (proj2 popf_removal work Hlen) as (item & rest & Hpop).
  rewrite Hpop.
  destruct (popf_wraps _ popf_removal _ _ _ _ Hwork Hpop)
    as [(p & -> & Hp) Hrest].
  assert (length work = S (length rest)) as Hlenw.
  { apply popf_removal in Hpop. by rewrite Hpop. }
  simpl.
  destruct (search_for dead_end (extensions p) seen rest)
    as [seen' work'|n] eqn:Hfor; [|simpl; lia].
  apply search_for_next in Hfor as (new & -> & -> & Hsub & Hnd & Hfresh & _).
  assert (∀ e, e ∈ new -> reachable s e) as Hreach.
  { intros e He. apply (reach_ext _ p); [done|]. by apply Hsub. }
  assert (seen ∪ list_to_set (__str__ <$> new) ⊆ U) as Hseen'.
  { apply union_subseteq. split; [done|].
    intros k (e & -> & He)%elem_of_list_to_set%list_elem_of_fmap. auto. }
  assert (size (seen ∪ list_to_set (__str__ <$> new))
          = size seen + length new) as Hsize.
  { rewrite size_union.
    - rewrite size_list_to_set by done. by rewrite length_fmap.
    - intros k Hk (e & -> & He)%elem_of_list_to_set%list_elem_of_fmap.
      by apply (Hfresh e). }
  pose proof (IH _ _ (wraps_new _ _ _ Hrest Hreach) Hseen') as Hrec.
  apply subseteq_size in Hseen'. rewrite Hsize in *.
  rewrite length_app, length_fmap in Hrec. lia.
Qed.
End Bound.

Section BoundEntry.
Context {P : Type} {Pz : Puzzle P}.

(** X1. A run examines at most one state more than there are reachable
    states: if [univ] lists every state reachable from [s], then at any
    point of a run of either solver at most [length univ + 1] states have
    been popped and expanded. *)
Theorem examined_at_most_reachable (s : P) (univ : list P) (fuel : nat) :
  (∀ p, reachable s p -> p ∈ univ) ->
  length (dfs_examined fuel s) ≤ length univ + 1
  ∧ length (bfs_examined fuel s) ≤ length univ + 1.
Proof.
  intros Huniv.
  pose proof (strings_of_universe s univ Huniv) as HU.
  pose proof (size_list_to_set_le (__str__ <$> univ)) as Hsize.
  rewrite length_fmap in Hsize.
  split.
  - pose proof (examined_length pop dfs_dead_end pop_removal s _ fuel ∅
                  [PuzzleNode_of s] HU (initial_work s)
                  (empty_subseteq _)) as Hlen.
    rewrite size_empty in Hlen.
    etrans; [exact Hlen|]. simpl. lia.
  - pose proof (examined_length pop0 bfs_dead_end pop0_removal s _ fuel ∅
                  [PuzzleNode_of s] HU (initial_work s)
                  (empty_subseteq _)) as Hlen.
    rewrite size_empty in Hlen.
    etrans; [exact Hlen|]. simpl. lia.
Qed.
End BoundEntry.

Lemma examined_at_most_reachable_witness :
  (∀ p, reachable (Pz := counter_puzzle 5) 0 p -> p ∈ seq 0 6)
  ∧ length (dfs_examined (Pz := counter_puzzle 5) 10 0) ≤ length (seq 0 6) + 1
  ∧ length (bfs_examined (Pz := counter_puzzle 5) 10 0) ≤ length (seq 0 6) + 1.
Proof.
  assert (∀ p, reachable (Pz := counter_puzzle 5) 0 p -> p ∈ seq 0 6) as Huniv.
  { intros p Hp%counter_reachable. apply elem_of_seq. lia. }
  split; [exact Huniv|].
  exact (examined_at_most_reachable (Pz := counter_puzzle 5) 0 (seq 0 6) 10
           Huniv).
Defined.

(** ** When the solvers succeed *)

Section OpenChains.
Context {P : Type} {Pz : Puzzle P}.

Lemma open_path_snoc (s p e : P) :
  open_path s p -> e ∈ extensions p -> fail_fast e = false -> open_path s e.
Proof.
  induction 1 as [a b Hb Hffb|a c b Hc Hffc _ IH]; intros He Hff.
  - apply (open_cons _ b); [done|done|]. by apply open_last.
  - apply (open_cons _ c); [done|done|]. by apply IH.
Qed.

Lemma open_chain_snoc (s p e : P) :
  open_chain s p -> e ∈ extensions p -> fail_fast e = false -> open_chain s e.
Proof.
  intros [->|Hpath] He Hff; right.
  - by apply open_last.
  - by apply (open_path_snoc s p).
Qed.

Lemma open_path_reachable (s a b : P) :
  reachable s a -> open_path a b -> reachable s b.
Proof.
  intros Ha Hpath. induction Hpath as [a b Hb _|a c b Hc _ _ IH].
  - by apply (reach_ext _ a).
  - apply IH. by apply (reach_ext _ a).
Qed.

Lemma open_path_has_extension (a b : P) : open_path a b -> extensions a ≠ [].
Proof.
  intros [? ? Hin|? ? ? Hin]; intros Hnil; rewrite Hnil in Hin;
    by apply elem_of_nil in Hin.
Qed.
End OpenChains.

Section Success.
Context {P : Type} {Pz : Puzzle P}.
Variable popf :
  list (PuzzleNode P) -> result (PuzzleNode P * list (PuzzleNode P)).
Variable dead_end : P -> bool.
Hypothesis popf_removal : removal popf.
Hypothesis dead_end_no_extension : ∀ e, dead_end e = true -> extensions e = [].

(** The states the [for] loop pushes are extensions that do not report
    [fail_fast()]. *)
Lemma search_for_next_open exts seen work seen' work' :
  search_for dead_end exts seen work = Next seen' work' ->
  ∃ new : list P,
    work' = work ++ (PuzzleNode_of <$> new)
    ∧ ∀ e, e ∈ new -> e ∈ exts ∧ fail_fast e = false.
Proof.
  revert seen work. induction exts as [|e exts IH]; intros seen work Hfor.
  - simpl in Hfor. injection Hfor as <- <-. exists []. simpl.
    rewrite app_nil_r. split; [done|]. intros e He. by apply elem_of_nil in He.
  - simpl in Hfor. unfold search_body in Hfor.
    destruct (is_solved e); [done|].
    destruct (search_skip dead_end seen e) eqn:Hskip.
    + apply IH in Hfor as (new & -> & Hnew). exists new. split; [done|].
      intros x Hx. destruct (Hnew x Hx). split; [|done].
      by apply list_elem_of_further.
    + apply IH in Hfor as (new & -> & Hnew). exists (e :: new). split.
      * by rewrite <- app_assoc.
      * unfold search_skip in Hskip.
        apply orb_false_iff in Hskip as [Hskip _].
        apply orb_false_iff in Hskip as [Hff _].
        intros x [->|Hx]%elem_of_cons.
        -- split; [apply list_elem_of_here|done].
        -- destruct (Hnew x Hx). split; [|done]. by apply list_elem_of_further.
Qed.

(** A returned node wraps a solved extension of a state reached through
    extensions that were not pruned. *)
Lemma search_while_found_open s fuel seen work n :
  Forall (wraps (open_chain s)) work ->
  search_while popf dead_end fuel seen work = Found n ->
  ∃ p e, open_chain s p ∧ e ∈ extensions p ∧ is_solved e = true
         ∧ n = PuzzleNode_of e.
Proof.
  revert seen work. induction fuel as [|fuel IH]; intros seen work Hwork; [done|].
  simpl. destruct (0 <? length work) eqn:Hlen; [|done].
  apply Nat.ltb_lt in Hlen.
  destruct (proj2 popf_removal work Hlen) as (item & rest & Hpop).
  rewrite Hpop.
  destruct (popf_wraps _ popf_removal _ _ _ _ Hwork Hpop)
    as [(p & -> & Hp) Hrest].
  simpl. destruct (search_for dead_end (extensions p) seen rest)
    as [seen' work'|m] eqn:Hfor.
  - apply search_for_next_open in Hfor as (new & -> & Hnew).
    apply IH. apply wraps_new; [done|].
    intros e He. destruct (Hnew e He). by apply (open_chain_snoc s p).
  - apply search_for_return in Hfor as (pre & e & post & Hexts & _ & He & ->).
    intros [= <-]. exists p, e. split_and!; try done.
    rewrite Hexts. apply elem_of_app. right. apply list_elem_of_here.
Qed.

(** Once everything is expanded, the expanded states are closed under
    open paths to states that have extensions. *)
Lemma explored_closed s seen expanded p q :
  collision_free s ->
  explored dead_end s seen [] expanded ->
  p ∈ expanded -> open_path p q -> extensions q ≠ [] -> q ∈ expanded.
Proof.
  intros Hinj (_ & Hdone & Hseen & _) Hp Hpath.
  assert (∀ a b, a ∈ expanded -> b ∈ extensions a -> fail_fast b = false ->
            extensions b ≠ [] -> b ∈ expanded) as Hstep.
  { intros a b Ha Hb Hff Hexts.
    destruct (Hdone a Ha) as [Hreach Hall].
    destruct (Hall b Hb) as [_ [Hwhy|[Hwhy|Hwhy]]]; [congruence| |].
    - by apply dead_end_no_extension in Hwhy.
    - destruct (Hseen _ Hwhy) as (b' & Hstr & [Hb'|Hb']);
        [|by apply elem_of_nil in Hb'].
      assert (b' = b) as ->; [|done].
      apply Hinj; [by apply (Hdone b' Hb')| |done].
      by apply (reach_ext _ a). }
  induction Hpath as [a b Hb Hff|a c b Hc Hff Hpath IH]; intros Hexts.
  - by apply (Hstep a).
  - apply IH; [|done]. apply (Hstep a); try done.
    by apply (open_path_has_extension c b).
Qed.

Lemma search_while_finds s (U : gset string) :
  (∀ p, reachable s p -> __str__ p ∈ U) ->
  collision_free s ->
  open_solution s ->
  ∃ n, search_while popf dead_end (size U + 2) ∅ [PuzzleNode_of s] = Found n.
Proof.
  intros HU Hinj (p & e & Hchain & He & Hsolved).
  destruct (search_while_terminates popf dead_end popf_removal s U
              (size U + 2) ∅ [PuzzleNode_of s]) as [[n|] Hrun];
    [done|apply initial_work|apply empty_subseteq|simpl; lia|by eauto|].
  exfalso.
  apply (search_while_not_found _ _ popf_removal dead_end_no_extension
           s _ _ _ []) in Hrun as (seen' & expanded' & Hinv).
  - assert (s ∈ expanded') as Hs.
    { destruct Hinv as (_ & _ & _ & [Hs|Hs]); [done|by apply elem_of_nil in Hs]. }
    assert (p ∈ expanded') as Hp.
    { destruct Hchain as [<-|Hpath]; [done|].
      apply (explored_closed s seen' expanded' s p); try done.
      intros Hnil. rewrite Hnil in He. by apply elem_of_nil in He. }
    destruct Hinv as (_ & Hdone & _).
    destruct (Hdone p Hp) as [_ Hall]. destruct (Hall e He). congruence.
  - split_and!; [apply initial_work| | |].
    + intros q Hq. by apply elem_of_nil in Hq.
    + intros k Hk. by apply not_elem_of_empty in Hk.
    + right. apply list_elem_of_here.
Qed.
End Success.

Section SuccessEntry.
Context {P : Type} {Pz : Puzzle P}.

Lemma initial_work_open (s : P) :
  Forall (wraps (open_chain s)) [PuzzleNode_of s].
Proof. repeat constructor. exists s. split; [done|by left]. Qed.

(** X2. On a finite graph with collision-free canonical strings the two
    solvers succeed on the same initial states, namely those from which a
    chain of extensions, none reporting [fail_fast()], leads to a state
    that has a solved extension ([fail_fast()] of the solved extension
    itself does not matter). *)
Theorem solvers_succeed_iff (s : P) :
  finite_reachable s -> collision_free s ->
  (finds_solution depth_first_solve s <-> open_solution s)
  ∧ (finds_solution breadth_first_solve s <-> open_solution s).
Proof.
  intros [univ Huniv] Hinj.
  pose proof (strings_of_universe s univ Huniv) as HU.
  set (U := list_to_set (__str__ <$> univ) : gset string) in HU.
  split; split.
  - intros (fuel & n & Hrun). unfold depth_first_solve in Hrun.
    rewrite dfs_while_search in Hrun.
    apply (search_while_found_open _ _ pop_removal s) in Hrun
      as (p & e & Hp & He & Hsolved & _); [|apply initial_work_open].
    by exists p, e.
  - intros Hsol. exists (size U + 2). unfold depth_first_solve.
    rewrite dfs_while_search.
    by apply (search_while_finds _ _ pop_removal).
  - intros (fuel & n & Hrun). unfold breadth_first_solve in Hrun.
    rewrite bfs_while_search in Hrun.
    apply (search_while_found_open _ _ pop0_removal s) in Hrun
      as (p & e & Hp & He & Hsolved & _); [|apply initial_work_open].
    by exists p, e.
  - intros Hsol. exists (size U + 2). unfold breadth_first_solve.
    rewrite bfs_while_search.
    apply (search_while_finds _ _ pop0_removal); try done.
    intros e. apply bfs_dead_end_spec.
Qed.
End SuccessEntry.

Lemma solvers_succeed_iff_witness :
  finite_reachable (Pz := counter_puzzle 5) 0
  ∧ collision_free (Pz := counter_puzzle 5) 0
  ∧ (finds_solution (depth_first_solve (Pz := counter_puzzle 5)) 0
     <-> open_solution (Pz := counter_puzzle 5) 0)
  ∧ (finds_solution (breadth_first_solve (Pz := counter_puzzle 5)) 0
     <-> open_solution (Pz := counter_puzzle 5) 0).
Proof.
  split; [apply counter_finite|]. split; [apply counter_collision_free|].
  exact (solvers_succeed_iff (Pz := counter_puzzle 5) 0
           (counter_finite 5) (counter_collision_free 5)).
Defined.

(** ** More on PuzzleNode.__eq__ *)

Lemma forallb_over_map {A B : Type} (f : B -> bool) (g : A -> B) (l : list A) :
  forallb f (map g l) = forallb (fun x => f (g x)) l.
Proof. induction l as [|x l IH]; simpl; congruence. Qed.

Lemma existsb_over_map {A B : Type} (f : B -> bool) (g : A -> B) (l : list A) :
  existsb f (map g l) = existsb (fun x => f (g x)) l.
Proof. induction l as [|x l IH]; simpl; congruence. Qed.

Section NodeEquivalence.
Context {P : Type} {Pz : Puzzle P}.

Lemma opt_puzzle_eq_trans :
  (∀ p q r : P, puzzle_eq p q = true -> puzzle_eq q r = true ->
     puzzle_eq p r = true) ->
  ∀ a b c : option P,
    opt_puzzle_eq a b = true -> opt_puzzle_eq b c = true ->
    opt_puzzle_eq a c = true.
Proof. intros Htrans [p|] [q|] [r|]; simpl; eauto; done. Qed.

Lemma node_eq_trans_both :
  (∀ p q r : P, puzzle_eq p q = true -> puzzle_eq q r = true ->
     puzzle_eq p r = true) ->
  ∀ a b c : PuzzleNode P,
    (node_eq a b = true -> node_eq b c = true -> node_eq a c = true)
    ∧ (node_eq c b = true -> node_eq b a = true -> node_eq c a = true).
Proof.
  intros Htrans a.
  induction a as [p cs par IH] using PuzzleNode_children_ind.
  rewrite Forall_forall in IH. intros b c. split.
  - intros (Hp1 & Hba & Hab)%node_eq_spec (Hp2 & Hcb & Hbc)%node_eq_spec.
    apply node_eq_spec. simpl in *. split_and!.
    + by apply (opt_puzzle_eq_trans Htrans _ (puzzle b)).
    + intros z Hz. destruct (Hcb z Hz) as (y & Hy & Hyz).
      destruct (Hba y Hy) as (x & Hx & Hxy). exists x. split; [done|].
      by apply (proj1 (IH x Hx y z)).
    + intros x Hx. destruct (Hab x Hx) as (y & Hy & Hyx).
      destruct (Hbc y Hy) as (z & Hz & Hzy). exists z. split; [done|].
      by apply (proj2 (IH x Hx y z)).
  - intros (Hp1 & Hbc & Hcb)%node_eq_spec (Hp2 & Hab & Hba)%node_eq_spec.
    apply node_eq_spec. simpl in *. split_and!.
    + by apply (opt_puzzle_eq_trans Htrans _ (puzzle b)).
    + intros x Hx. destruct (Hab x Hx) as (y & Hy & Hyx).
      destruct (Hbc y Hy) as (z & Hz & Hzy). exists z. split; [done|].
      by apply (proj2 (IH x Hx y z)).
    + intros z Hz. destruct (Hcb z Hz) as (y & Hy & Hyz).
      destruct (Hba y Hy) as (x & Hx & Hxy). exists x. split; [done|].
      by apply (proj1 (IH x Hx y z)).
Qed.

(** X3. Node equality is an equivalence relation as soon as the puzzle's
    [==] is one: [a == a]; [a == b] and [b == a] always agree; and
    [a == b], [b == c] give [a == c]. *)
Theorem node_eq_equivalence :
  (∀ p : P, puzzle_eq p p = true) ->
  (∀ p q : P, puzzle_eq p q = puzzle_eq q p) ->
  (∀ p q r : P, puzzle_eq p q = true -> puzzle_eq q r = true ->
     puzzle_eq p r = true) ->
  (∀ a : PuzzleNode P, PuzzleNode_eq a (VNode a) = true)
  ∧ (∀ a b : PuzzleNode P,
       PuzzleNode_eq a (VNode b) = PuzzleNode_eq b (VNode a))
  ∧ (∀ a b c : PuzzleNode P,
       PuzzleNode_eq a (VNode b) = true -> PuzzleNode_eq b (VNode c) = true ->
       PuzzleNode_eq a (VNode c) = true).
Proof.
  intros Hrefl Hsym Htrans. unfold PuzzleNode_eq. split_and!.
  - by apply node_eq_refl.
  - by apply node_eq_sym.
  - intros a b c. by apply (node_eq_trans_both Htrans a b c).
Qed.

Lemma without_parents_children (n : PuzzleNode P) :
  children (without_parents n) = map without_parents (children n).
Proof. by destruct n. Qed.

Lemma node_eq_without_parents_both (a : PuzzleNode P) :
  ∀ b, node_eq (without_parents a) (without_parents b) = node_eq a b
       ∧ node_eq (without_parents b) (without_parents a) = node_eq b a.
Proof.
  induction a as [p cs par IH] using PuzzleNode_children_ind.
  rewrite Forall_forall in IH. intros [p' cs' par'].
  rewrite !(node_eq_unfold (without_parents _)).
  rewrite (node_eq_unfold (mkPuzzleNode p cs par)).
  rewrite (node_eq_unfold (mkPuzzleNode p' cs' par')).
  rewrite !without_parents_children. simpl.
  unfold node_in. rewrite !forallb_over_map.
  split; (f_equal; [f_equal|]).
  - apply forallb_ext_Forall, Forall_forall. intros x _.
    rewrite existsb_over_map. apply existsb_ext_Forall, Forall_forall.
    intros e He. apply (IH e He x).
  - apply forallb_ext_Forall, Forall_forall. intros x Hx.
    rewrite existsb_over_map. apply existsb_ext_Forall, Forall_forall.
    intros e _. apply (IH x Hx e).
  - apply forallb_ext_Forall, Forall_forall. intros x Hx.
    rewrite existsb_over_map. apply existsb_ext_Forall, Forall_forall.
    intros e _. apply (IH x Hx e).
  - apply forallb_ext_Forall, Forall_forall. intros x _.
    rewrite existsb_over_map. apply existsb_ext_Forall, Forall_forall.
    intros e He. apply (IH e He x).
Qed.

(** X4. Node equality never looks at a [parent], at any depth: clearing
    every [parent] of both trees does not change the result. *)
Theorem node_eq_ignores_parents (a b : PuzzleNode P) :
  PuzzleNode_eq (without_parents a) (VNode (without_parents b))
  = PuzzleNode_eq a (VNode b).
Proof. apply node_eq_without_parents_both. Qed.
End NodeEquivalence.

Lemma node_eq_equivalence_witness :
  (∀ p, puzzle_eq (Puzzle := counter_puzzle 5) p p = true)
  ∧ (∀ p q, puzzle_eq (Puzzle := counter_puzzle 5) p q
            = puzzle_eq (Puzzle := counter_puzzle 5) q p)
  ∧ (∀ p q r, puzzle_eq (Puzzle := counter_puzzle 5) p q = true ->
              puzzle_eq (Puzzle := counter_puzzle 5) q r = true ->
              puzzle_eq (Puzzle := counter_puzzle 5) p r = true)
  ∧ PuzzleNode_eq (Pz := counter_puzzle 5)
      (mkPuzzleNode (Some 0) [PuzzleNode_of 1] None)
      (VNode (mkPuzzleNode (Some 0) [PuzzleNode_of 1] None)) = true.
Proof.
  assert (∀ p, puzzle_eq (Puzzle := counter_puzzle 5) p p = true) as Hrefl.
  { intros p. apply Nat.eqb_refl. }
  assert (∀ p q, puzzle_eq (Puzzle := counter_puzzle 5) p q
                 = puzzle_eq (Puzzle := counter_puzzle 5) q p) as Hsym.
  { intros p q. apply Nat.eqb_sym. }
  assert (∀ p q r, puzzle_eq (Puzzle := counter_puzzle 5) p q = true ->
                   puzzle_eq (Puzzle := counter_puzzle 5) q r = true ->
                   puzzle_eq (Puzzle := counter_puzzle 5) p r = true) as Htrans.
  { intros p q r Hpq%Nat.eqb_eq Hqr%Nat.eqb_eq. apply Nat.eqb_eq. congruence. }
  split; [exact Hrefl|]. split; [exact Hsym|]. split; [exact Htrans|].
  exact (proj1 (node_eq_equivalence (Pz := counter_puzzle 5) Hrefl Hsym Htrans)
           (mkPuzzleNode (Some 0) [PuzzleNode_of 1] None)).
Defined.

(** ** PuzzleNode.__str__ *)

Section NodePrinting.
Context {P : Type} {Pz : Puzzle P}.

(** X5. Printing a path tree gives its states in order, each followed by
    a blank line; in particular the node a solver returns prints as the
    solved state followed by a blank line. *)
Theorem path_prints_states :
  (∀ (n : PuzzleNode P) (ps : list P),
     is_path n ps ->
     PuzzleNode_str n
     = foldr (fun p rest => (__str__ p ++ newline ++ newline ++ rest)%string)
         ""%string ps)
  ∧ (∀ (s : P) fuel n,
       depth_first_solve fuel s = Found n
       ∨ breadth_first_solve fuel s = Found n ->
       ∃ e, is_solved e = true
            ∧ PuzzleNode_str n = (__str__ e ++ newline ++ newline)%string).
Proof.
  split.
  - intros n ps Hpath. induction Hpath as [p par|p par c ps _ IH].
    + reflexivity.
    + simpl. simpl in IH. by rewrite IH.
  - intros s fuel n (p & e & _ & _ & Hsolved & ->)%found_node.
    exists e. split; [done|]. simpl.
    by destruct (__str__ e).
Qed.
End NodePrinting.

Lemma path_prints_states_witness :
  is_path (mkPuzzleNode (Some 4) [PuzzleNode_of 5] None) [4; 5]
  ∧ PuzzleNode_str (Pz := counter_puzzle 5)
      (mkPuzzleNode (Some 4) [PuzzleNode_of 5] None)
    = ("4" ++ newline ++ newline ++ "5" ++ newline ++ newline)%string.
Proof.
  assert (is_path (mkPuzzleNode (Some 4) [PuzzleNode_of 5] None) [4; 5])
    as Hpath.
  { apply path_step. apply path_end. }
  split; [exact Hpath|].
  exact (proj1 (path_prints_states (Pz := counter_puzzle 5)) _ _ Hpath).
Defined.

(** ** SudokuPuzzle: is_solved and fail_fast *)

(** The docstring examples of [is_solved] and [fail_fast]. *)
Example is_solved_doctest :
  Sudoku.is_solved
    (Sudoku.mkSudokuPuzzle 4
       [["A"; "B"; "C"; "D"]; ["C"; "D"; "A"; "B"];
        ["B"; "A"; "D"; "C"]; ["D"; "C"; "B"; "A"]]%string
       (list_to_set ["A"; "B"; "C"; "D"]%string)) = Ok true
  ∧ Sudoku.is_solved
      (Sudoku.mkSudokuPuzzle 4
         [["A"; "B"; "C"; "D"]; ["C"; "D"; "A"; "B"];
          ["B"; "D"; "A"; "C"]; ["D"; "C"; "B"; "A"]]%string
         (list_to_set ["A"; "B"; "C"; "D"]%string)) = Ok false.
Proof. split; by vm_compute. Qed.

Example fail_fast_doctest :
  Sudoku.fail_fast
    (Sudoku.mkSudokuPuzzle 4
       [["A"; "B"; "C"; "D"]; ["C"; "D"; "*"; "*"];
        ["*"; "*"; "*"; "*"]; ["*"; "*"; "*"; "*"]]%string
       (list_to_set ["A"; "B"; "C"; "D"]%string)) = Ok false
  ∧ Sudoku.fail_fast
      (Sudoku.mkSudokuPuzzle 4
         [["B"; "D"; "A"; "C"]; ["C"; "A"; "B"; "D"];
          ["A"; "B"; "*"; "*"]; ["*"; "*"; "*"; "*"]]%string
         (list_to_set ["A"; "B"; "C"; "D"]%string)) = Ok true.
Proof. split; by vm_compute. Qed.

Lemma item_Ok {A : Type} (l : list A) (i : nat) (a : A) :
  Sudoku.item l i = Ok a <-> l !! i = Some a.
Proof. unfold Sudoku.item. destruct (l !! i); naive_solver. Qed.

Lemma sequence_fmap_Ok {A : Type} (vs : list A) :
  Sudoku.sequence (Ok <$> vs) = Ok vs.
Proof.
  induction vs as [|v vs IH]; simpl; [done|].
  change (list_fmap A (result A) Ok vs) with (Ok <$> vs). by rewrite IH.
Qed.

Lemma sequence_Ok {A : Type} (l : list (result A)) (vs : list A) :
  Sudoku.sequence l = Ok vs <-> l = Ok <$> vs.
Proof.
  split; [|intros ->; apply sequence_fmap_Ok].
  revert vs. induction l as [|r l IH]; intros vs; simpl.
  - by intros [= <-].
  - destruct r as [a|e]; simpl; [|done].
    destruct (Sudoku.sequence l) as [vs'|e]; simpl; [|done].
    intros [= <-]. simpl. f_equal. by apply IH.
Qed.

Lemma sequence_all_true (l : list (result bool)) :
  Forall (fun r => r = Ok true) l ->
  ∃ checks, Sudoku.sequence l = Ok checks ∧ forallb id checks = true.
Proof.
  induction 1 as [|r l -> _ (checks & Hseq & Hall)]; simpl.
  - by exists [].
  - exists (true :: checks). rewrite Hseq. simpl. by rewrite Hall.
Qed.

Lemma positions_spec (n i j : nat) :
  (i, j) ∈ Sudoku.positions n <-> i < n ∧ j < n.
Proof.
  unfold Sudoku.positions. rewrite list_elem_of_bind.
  setoid_rewrite list_elem_of_fmap. setoid_rewrite elem_of_seq.
  split.
  - intros (i' & (j' & [= -> ->] & Hj) & Hi). lia.
  - intros [Hi Hj]. exists i. split; [|lia]. exists j. split; [done|lia].
Qed.

Lemma position_ok_true (self : Sudoku.SudokuPuzzle) (i j : nat) :
  Sudoku.position_ok self i j = Ok true
  <-> Sudoku._row_set self i = Ok (Sudoku._symbol_set self)
      ∧ Sudoku._column_set self j = Ok (Sudoku._symbol_set self)
      ∧ Sudoku._subsquare_set self i j = Ok (Sudoku._symbol_set self).
Proof.
  unfold Sudoku.position_ok.
  destruct (Sudoku._row_set self i) as [A|e]; simpl; [|naive_solver].
  case_bool_decide as HA; [subst A|naive_solver].
  destruct (Sudoku._column_set self j) as [B|e]; simpl; [|naive_solver].
  case_bool_decide as HB; [subst B|naive_solver].
  destruct (Sudoku._subsquare_set self i j) as [C|e]; simpl; [|naive_solver].
  case_bool_decide as HC; naive_solver.
Qed.

(** When [is_solved] returns [True]. *)
Lemma is_solved_true (self : Sudoku.SudokuPuzzle) :
  Sudoku.is_solved self = Ok true
  <-> Sudoku.any_star (Sudoku._symbols self) = false
      ∧ ∀ i j, i < Sudoku._n self -> j < Sudoku._n self ->
          Sudoku.position_ok self i j = Ok true.
Proof.
  unfold Sudoku.is_solved.
  destruct (Sudoku.any_star (Sudoku._symbols self)); simpl; [naive_solver|].
  set (l := (i ← seq 0 (Sudoku._n self);
             (fun j => Sudoku.position_ok self i j)
               <$> seq 0 (Sudoku._n self))).
  assert (∀ r, r ∈ l <-> ∃ i j, i < Sudoku._n self ∧ j < Sudoku._n self
                         ∧ r = Sudoku.position_ok self i j) as Hl.
  { intros r. unfold l. rewrite list_elem_of_bind.
    setoid_rewrite list_elem_of_fmap. setoid_rewrite elem_of_seq.
    split.
    - intros (i & (j & -> & Hj) & Hi). exists i, j. split_and!; [lia|lia|done].
    - intros (i & j & Hi & Hj & ->). exists i. split; [|lia].
      exists j. split; [done|lia]. }
  split.
  - destruct (Sudoku.sequence l) as [checks|e] eqn:Hseq; simpl; [|done].
    intros [= Hall]. split; [done|]. intros i j Hi Hj.
    apply sequence_Ok in Hseq.
    assert (Sudoku.position_ok self i j ∈ l) as Hin by (apply Hl; eauto).
    rewrite Hseq in Hin. apply list_elem_of_fmap in Hin as (b & -> & Hb).
    rewrite forallb_forall in Hall. apply list_elem_of_In, Hall in Hb.
    unfold id in Hb. by subst.
  - intros [_ Hall].
    destruct (sequence_all_true l) as (checks & -> & Hchecks).
    + apply Forall_forall. intros r (i & j & Hi & Hj & ->)%Hl. by apply Hall.
    + simpl. by rewrite Hchecks.
Qed.

Lemma any_star_false (symbols : list (list string)) :
  Sudoku.any_star symbols = false
  <-> ∀ row, row ∈ symbols -> "*"%string ∉ row.
Proof.
  rewrite <- not_true_iff_false, any_star_spec. split.
  - intros Hnone row Hrow Hin. apply Hnone. by exists row.
  - intros Hnone (row & Hrow & Hin). by apply (Hnone row).
Qed.

Lemma row_set_Ok (self : Sudoku.SudokuPuzzle) (i : nat) (A : gset string) :
  Sudoku._row_set self i = Ok A
  <-> ∃ row, Sudoku._symbols self !! i = Some row ∧ A = list_to_set row.
Proof.
  unfold Sudoku._row_set, Sudoku.item.
  destruct (Sudoku._symbols self !! i); simpl; naive_solver.
Qed.

Lemma column_set_Ok (self : Sudoku.SudokuPuzzle) (j : nat) (B : gset string) :
  Sudoku._column_set self j = Ok B
  <-> ∃ col, Forall2 (fun row v => row !! j = Some v) (Sudoku._symbols self) col
             ∧ B = list_to_set col.
Proof.
  unfold Sudoku._column_set.
  assert (∀ col, Sudoku.sequence
                   ((fun row => Sudoku.item row j) <$> Sudoku._symbols self)
                 = Ok col
                 <-> Forall2 (fun row v => row !! j = Some v)
                       (Sudoku._symbols self) col) as Hcol.
  { intros col. rewrite sequence_Ok.
    generalize (Sudoku._symbols self). intros rows. revert col.
    induction rows as [|row rows IH]; intros [|v col]; simpl.
    - split; [constructor|done].
    - split; [done|]. intros Hall. inversion Hall.
    - split; [done|]. intros Hall. inversion Hall.
    - split.
      + intros [= Hitem Hrest]. constructor; [by apply item_Ok|by apply IH].
      + intros Hall. inversion Hall as [|? ? ? ? Hitem Hrest]; subst.
        apply item_Ok in Hitem. apply IH in Hrest. by f_equal. }
  destruct (Sudoku.sequence _) as [col|e] eqn:Hseq; simpl.
  - split.
    + intros [= <-]. exists col. split; [by apply Hcol|done].
    + intros (col' & Hall%Hcol & ->). by injection Hall as ->.
  - split; [done|]. by intros (col & Hall%Hcol & _).
Qed.

Lemma NoDup_of_size (l : list string) :
  size (list_to_set l : gset string) = length l -> NoDup l.
Proof.
  induction l as [|x l IH]; [constructor|].
  rewrite list_to_set_cons, size_union_alt, size_singleton. simpl.
  intros Hsize.
  pose proof (size_list_to_set_le l) as Hle.
  assert (size (list_to_set l ∖ {[x]} : gset string)
          ≤ size (list_to_set l : gset string)) as Hdiff.
  { apply subseteq_size. set_solver. }
  assert (x ∉ l) as Hx.
  { intros Hin.
    assert ({[x]} ⊆ (list_to_set l : gset string)) as Hsub.
    { apply singleton_subseteq_l. by apply elem_of_list_to_set. }
    pose proof (size_difference _ _ Hsub) as Hminus.
    rewrite size_singleton in Hminus.
    assert (size (list_to_set l : gset string) ≠ 0) as Hne.
    { intros Hzero%size_empty_iff.
      assert (x ∈ (list_to_set l : gset string)) as Hxin
        by (by apply elem_of_list_to_set).
      rewrite Hzero in Hxin. by apply not_elem_of_empty in Hxin. }
    lia. }
  constructor; [done|]. apply IH.
  assert ((list_to_set l ∖ {[x]} : gset string) = list_to_set l) as Heq.
  { apply set_eq. intros y. rewrite elem_of_difference, elem_of_singleton.
    rewrite elem_of_list_to_set. split; [tauto|].
    intros Hy. split; [done|]. by intros ->. }
  rewrite Heq in Hsize. lia.
Qed.

(** X6. In a grid that [is_solved()] accepts, with [n] rows of [n]
    symbols and [n] symbols in the symbol set, every row and every column
    holds each symbol of the set exactly once, and no cell is empty. *)
Theorem solved_rows_and_columns (self : Sudoku.SudokuPuzzle) :
  Sudoku.is_solved self = Ok true ->
  size (Sudoku._symbol_set self) = Sudoku._n self ->
  length (Sudoku._symbols self) = Sudoku._n self ->
  Forall (fun row => length row = Sudoku._n self) (Sudoku._symbols self) ->
  (∀ row, row ∈ Sudoku._symbols self ->
     NoDup row ∧ ∀ x, x ∈ row <-> x ∈ Sudoku._symbol_set self)
  ∧ (∀ j, j < Sudoku._n self ->
       ∃ col,
         Forall2 (fun row v => row !! j = Some v) (Sudoku._symbols self) col
         ∧ NoDup col ∧ ∀ x, x ∈ col <-> x ∈ Sudoku._symbol_set self)
  ∧ (∀ row, row ∈ Sudoku._symbols self -> "*"%string ∉ row).
Proof.
  intros [Hstar Hall]%is_solved_true Hsize Hrows Hcols. split_and!.
  - intros row Hrow.
    apply list_elem_of_lookup in Hrow as [i Hi].
    assert (i < Sudoku._n self) as Hlt.
    { rewrite <- Hrows. by apply lookup_lt_Some in Hi. }
    destruct (proj1 (position_ok_true self i 0) (Hall i 0 Hlt ltac:(lia)))
      as ((row' & Hi' & Hset)%row_set_Ok & _).
    assert (row' = row) as -> by congruence.
    split.
    + apply NoDup_of_size. rewrite <- Hset, Hsize.
      rewrite Forall_forall in Hcols. symmetry. apply Hcols.
      apply list_elem_of_lookup. eauto.
    + intros x. rewrite Hset. by rewrite elem_of_list_to_set.
  - intros j Hj.
    destruct (proj1 (position_ok_true self 0 j) (Hall 0 j ltac:(lia) Hj))
      as (_ & (col & Hcol & Hset)%column_set_Ok & _).
    exists col. split_and!; [done| |].
    + apply NoDup_of_size. rewrite <- Hset, Hsize.
      apply Forall2_length in Hcol. lia.
    + intros x. rewrite Hset. by rewrite elem_of_list_to_set.
  - by apply any_star_false.
Qed.

Lemma first_stuck_never (self : Sudoku.SudokuPuzzle) (ps : list (nat * nat)) :
  (∀ i j, (i, j) ∈ ps -> Sudoku.position_stuck self i j = Ok false) ->
  Sudoku.first_stuck self ps = Ok false.
Proof.
  induction ps as [|[i j] ps IH]; intros Hall; simpl; [done|].
  rewrite (Hall i j) by apply list_elem_of_here.
  apply IH. intros i' j' Hin. apply Hall. by apply list_elem_of_further.
Qed.

(** X7. A grid that [is_solved()] accepts is terminal and is not pruned:
    [extensions()] returns the empty list and [fail_fast()] returns
    [False], without raising. *)
Theorem solved_is_terminal (self : Sudoku.SudokuPuzzle) :
  Sudoku.is_solved self = Ok true ->
  Sudoku.extensions self = Ok [] ∧ Sudoku.fail_fast self = Ok false.
Proof.
  intros [Hstar Hall]%is_solved_true. split.
  - unfold Sudoku.extensions. by rewrite Hstar.
  - apply first_stuck_never. intros i j [Hi Hj]%positions_spec.
    destruct (proj1 (position_ok_true self i j) (Hall i j Hi Hj))
      as ((row & Hrow & _)%row_set_Ok & (col & Hcol & _)%column_set_Ok & _).
    unfold Sudoku.position_stuck.
    rewrite (proj2 (item_Ok _ _ _) Hrow). simpl.
    destruct (Forall2_lookup_l _ _ _ _ _ Hcol Hrow) as (v & _ & Hv).
    rewrite (proj2 (item_Ok _ _ _) Hv). simpl.
    rewrite bool_decide_eq_false_2; [done|].
    intros ->. rewrite any_star_false in Hstar.
    apply (Hstar row).
    + apply list_elem_of_lookup. eauto.
    + apply list_elem_of_lookup. eauto.
Qed.

(** The solved grid of the docstring of [is_solved]. *)
Definition solved_grid : Sudoku.SudokuPuzzle :=
  Sudoku.mkSudokuPuzzle 4
    [["A"; "B"; "C"; "D"]; ["C"; "D"; "A"; "B"];
     ["B"; "A"; "D"; "C"]; ["D"; "C"; "B"; "A"]]%string
    (list_to_set ["A"; "B"; "C"; "D"]%string).

(** The second grid of the docstring of [fail_fast]. *)
Definition stuck_grid : Sudoku.SudokuPuzzle :=
  Sudoku.mkSudokuPuzzle 4
    [["B"; "D"; "A"; "C"]; ["C"; "A"; "B"; "D"];
     ["A"; "B"; "*"; "*"]; ["*"; "*"; "*"; "*"]]%string
    (list_to_set ["A"; "B"; "C"; "D"]%string).

Lemma solved_grid_is_solved : Sudoku.is_solved solved_grid = Ok true.
Proof. by vm_compute. Qed.

Lemma solved_rows_and_columns_witness :
  Sudoku.is_solved solved_grid = Ok true
  ∧ (∀ row, row ∈ Sudoku._symbols solved_grid ->
       NoDup row ∧ ∀ x, x ∈ row <-> x ∈ Sudoku._symbol_set solved_grid).
Proof.
  split; [exact solved_grid_is_solved|].
  refine (proj1 (solved_rows_and_columns solved_grid solved_grid_is_solved
                   _ _ _)).
  - by vm_compute.
  - reflexivity.
  - repeat constructor.
Defined.

Lemma solved_is_terminal_witness :
  Sudoku.is_solved solved_grid = Ok true
  ∧ Sudoku.extensions solved_grid = Ok []
  ∧ Sudoku.fail_fast solved_grid = Ok false.
Proof.
  split; [exact solved_grid_is_solved|].
  exact (solved_is_terminal solved_grid solved_grid_is_solved).
Defined.

Lemma first_stuck_spec (self : Sudoku.SudokuPuzzle) (ps : list (nat * nat))
    (b : bool) :
  Sudoku.first_stuck self ps = Ok b ->
  (b = true
   <-> ∃ i j, (i, j) ∈ ps ∧ Sudoku.position_stuck self i j = Ok true).
Proof.
  induction ps as [|[i j] ps IH]; simpl.
  - intros [= <-]. split; [done|].
    intros (i & j & Hin & _). by apply elem_of_nil in Hin.
  - destruct (Sudoku.position_stuck self i j) as [[|]|e] eqn:Hij; [| |done].
    + intros [= <-]. split; [|done]. intros _. exists i, j.
      split; [apply list_elem_of_here|done].
    + intros Hrest. rewrite (IH Hrest). split.
      * intros (i' & j' & Hin & Hstuck). exists i', j'.
        split; [by apply list_elem_of_further|done].
      * intros (i' & j' & [[= -> ->]|Hin]%elem_of_cons & Hstuck);
          [congruence|]. by exists i', j'.
Qed.

Lemma position_stuck_true (self : Sudoku.SudokuPuzzle) (i j : nat) :
  Sudoku.position_stuck self i j = Ok true
  <-> Sudoku.cell self i j = Some "*"%string
      ∧ ∃ A B C,
          Sudoku._row_set self i = Ok A
          ∧ Sudoku._column_set self j = Ok B
          ∧ Sudoku._subsquare_set self i j = Ok C
          ∧ Sudoku._symbol_set self ⊆ A ∪ B ∪ C.
Proof.
  unfold Sudoku.position_stuck, Sudoku.cell, Sudoku.item.
  destruct (Sudoku._symbols self !! i) as [row|]; simpl; [|naive_solver].
  destruct (row !! j) as [x|]; simpl; [|naive_solver].
  case_bool_decide as Hx; [subst x|naive_solver].
  destruct (Sudoku._row_set self i) as [A|e]; simpl; [|naive_solver].
  destruct (Sudoku._column_set self j) as [B|e]; simpl; [|naive_solver].
  destruct (Sudoku._subsquare_set self i j) as [C|e]; simpl; [|naive_solver].
  assert (size (Sudoku._symbol_set self ∖ (A ∪ B ∪ C)) = 0
          <-> Sudoku._symbol_set self ⊆ A ∪ B ∪ C) as Hlegal.
  { rewrite size_empty_iff, elem_of_equiv_empty. split.
    - intros Hempty x Hx. destruct (decide (x ∈ A ∪ B ∪ C)) as [|Hnot]; [done|].
      destruct (Hempty x). by apply elem_of_difference.
    - intros Hsub x [Hx Hnot]%elem_of_difference. by apply Hnot, Hsub. }
  case_bool_decide as Hsize.
  - split; [|done]. intros _. split; [done|].
    exists A, B, C. split_and!; try done. by apply Hlegal.
  - split; [done|]. intros (_ & A' & B' & C' & [= <-] & [= <-] & [= <-] & Hsub).
    by apply Hlegal in Hsub.
Qed.

(** X8. When [fail_fast()] returns, it returns [True] exactly if some
    empty cell has no symbol left: every symbol of the symbol set already
    occurs in the cell's row, column or subsquare. *)
Theorem fail_fast_spec (self : Sudoku.SudokuPuzzle) (b : bool) :
  Sudoku.fail_fast self = Ok b ->
  (b = true
   <-> ∃ i j,
         i < Sudoku._n self ∧ j < Sudoku._n self
         ∧ Sudoku.cell self i j = Some "*"%string
         ∧ ∃ A B C,
             Sudoku._row_set self i = Ok A
             ∧ Sudoku._column_set self j = Ok B
             ∧ Sudoku._subsquare_set self i j = Ok C
             ∧ Sudoku._symbol_set self ⊆ A ∪ B ∪ C).
Proof.
  intros Hrun%first_stuck_spec. rewrite Hrun. split.
  - intros (i & j & [Hi Hj]%positions_spec
            & [Hcell Hsets]%position_stuck_true).
    exists i, j. by split_and!.
  - intros (i & j & Hi & Hj & Hcell & Hsets). exists i, j. split.
    + by apply positions_spec.
    + by apply position_stuck_true.
Qed.

Lemma fail_fast_spec_witness :
  Sudoku.fail_fast stuck_grid = Ok true
  ∧ (true = true
     <-> ∃ i j,
           i < Sudoku._n stuck_grid ∧ j < Sudoku._n stuck_grid
           ∧ Sudoku.cell stuck_grid i j = Some "*"%string
           ∧ ∃ A B C,
               Sudoku._row_set stuck_grid i = Ok A
               ∧ Sudoku._column_set stuck_grid j = Ok B
               ∧ Sudoku._subsquare_set stuck_grid i j = Ok C
               ∧ Sudoku._symbol_set stuck_grid ⊆ A ∪ B ∪ C).
Proof.
  assert (Sudoku.fail_fast stuck_grid = Ok true) as Hrun by (by vm_compute).
  split; [exact Hrun|].
  exact (fail_fast_spec stuck_grid true Hrun).
Defined.

(** ** SudokuPuzzle: the three symbol sets *)

Lemma round_sqrt_square (k : nat) : Sudoku.round_sqrt (k * k) = k.
Proof.
  unfold Sudoku.round_sqrt. rewrite Nat.sqrt_square.
  replace (k * k - k * k) with 0 by lia. done.
Qed.

Lemma sequence_total {A : Type} (l : list (result A)) :
  Forall (fun r => ∃ v, r = Ok v) l -> ∃ vs, l = Ok <$> vs.
Proof.
  induction 1 as [|r l [v ->] _ [vs ->]].
  - by exists [].
  - by exists (v :: vs).
Qed.

Lemma item_item_cell (self : Sudoku.SudokuPuzzle) (i j : nat) (y : string) :
  (row ← Sudoku.item (Sudoku._symbols self) i; Sudoku.item row j) = Ok y
  <-> Sudoku.cell self i j = Some y.
Proof.
  unfold Sudoku.cell, Sudoku.item.
  destruct (Sudoku._symbols self !! i) as [row|]; simpl; [|naive_solver].
  destruct (row !! j); naive_solver.
Qed.

Lemma well_formed_cell (self : Sudoku.SudokuPuzzle) (k i j : nat) :
  Sudoku.well_formed self k ->
  i < Sudoku._n self -> j < Sudoku._n self ->
  ∃ y, Sudoku.cell self i j = Some y.
Proof.
  intros (_ & _ & Hrows & Hcols) Hi Hj. unfold Sudoku.cell.
  destruct (lookup_lt_is_Some_2 (Sudoku._symbols self) i) as [row Hrow];
    [lia|].
  rewrite Hrow. apply lookup_lt_is_Some_2.
  rewrite Forall_forall in Hcols. rewrite (Hcols row); [done|].
  apply list_elem_of_lookup. eauto.
Qed.

Lemma same_block (k r i : nat) :
  0 < k -> (i / k = r / k <-> ∃ d, d < k ∧ i = r / k * k + d).
Proof.
  intros Hk. split.
  - intros Hdiv. exists (i mod k). split; [by apply Nat.mod_upper_bound; lia|].
    rewrite <- Hdiv. pose proof (Nat.div_mod_eq i k). lia.
  - intros (d & Hd & ->). rewrite Nat.div_add_l by lia.
    rewrite (Nat.div_small d k) by done. lia.
Qed.

Lemma block_in_range (k r d : nat) :
  r < k * k -> d < k -> r / k * k + d < k * k.
Proof.
  intros Hr Hd.
  assert (r / k < k) as Hdiv by (apply Nat.Div0.div_lt_upper_bound; lia).
  nia.
Qed.

Lemma column_exists (rows : list (list string)) (c : nat) :
  Forall (fun row => c < length row) rows ->
  ∃ col, Forall2 (fun row v => row !! c = Some v) rows col.
Proof.
  induction 1 as [|row rows Hlt _ [col IH]].
  - exists []. constructor.
  - destruct (lookup_lt_is_Some_2 row c Hlt) as [v Hv].
    exists (v :: col). by constructor.
Qed.

Lemma symbol_sets_exact (self : Sudoku.SudokuPuzzle) (k r c : nat) :
  Sudoku.well_formed self k ->
  r < Sudoku._n self -> c < Sudoku._n self ->
  ∃ A B C,
    Sudoku._row_set self r = Ok A
    ∧ Sudoku._column_set self c = Ok B
    ∧ Sudoku._subsquare_set self r c = Ok C
    ∧ (∀ y, y ∈ A <-> ∃ j, Sudoku.cell self r j = Some y)
    ∧ (∀ y, y ∈ B <-> ∃ i, Sudoku.cell self i c = Some y)
    ∧ (∀ y, y ∈ C <->
         ∃ i j, i / k = r / k ∧ j / k = c / k
                ∧ Sudoku.cell self i j = Some y).
Proof.
  intros Hwf Hr Hc.
  pose proof Hwf as (Hk & Hn & Hrows & Hcols).
  rewrite Forall_forall in Hcols.
  (* the row *)
  destruct (lookup_lt_is_Some_2 (Sudoku._symbols self) r) as [row Hrow];
    [lia|].
  (* the column *)
  assert (∃ col, Forall2 (fun row v => row !! c = Some v)
                   (Sudoku._symbols self) col) as [col Hcol].
  { apply column_exists, Forall_forall.
    intros row' Hrow'. by rewrite (Hcols row' Hrow'). }
  (* the block *)
  set (f := fun i j : nat =>
              row ← Sudoku.item (Sudoku._symbols self) (r / k * k + i);
              Sudoku.item row (c / k * k + j)).
  set (l := i ← seq 0 k; f i <$> seq 0 k).
  assert (∀ x, x ∈ l <-> ∃ i j, i < k ∧ j < k ∧ x = f i j) as Hl.
  { intros x. unfold l. rewrite list_elem_of_bind.
    setoid_rewrite list_elem_of_fmap. setoid_rewrite elem_of_seq.
    split.
    - intros (i & (j & -> & Hj) & Hi). exists i, j. split_and!; [lia|lia|done].
    - intros (i & j & Hi & Hj & ->). exists i. split; [|lia].
      exists j. split; [done|lia]. }
  destruct (sequence_total l) as [vs Hvs].
  { apply Forall_forall. intros x (i & j & Hi & Hj & ->)%Hl.
    destruct (well_formed_cell self k (r / k * k + i) (c / k * k + j) Hwf)
      as [y Hy].
    - rewrite Hn. apply block_in_range; lia.
    - rewrite Hn. apply block_in_range; lia.
    - exists y. by apply item_item_cell. }
  exists (list_to_set row), (list_to_set col), (list_to_set vs).
  split_and!.
  - apply row_set_Ok. by exists row.
  - apply column_set_Ok. by exists col.
  - unfold Sudoku._subsquare_set. rewrite Hn, round_sqrt_square.
    transitivity
      (Sudoku.sequence l
       ≫= fun symbols : list string => Ok (list_to_set symbols : gset string));
      [reflexivity|].
    by rewrite (proj2 (sequence_Ok l vs) Hvs).
  - intros y. rewrite elem_of_list_to_set, list_elem_of_lookup.
    unfold Sudoku.cell. by rewrite Hrow.
  - intros y. rewrite elem_of_list_to_set, list_elem_of_lookup. split.
    + intros [i Hi].
      destruct (Forall2_lookup_r _ _ _ _ _ Hcol Hi) as (row' & Hrow' & Hv).
      exists i. unfold Sudoku.cell. by rewrite Hrow'.
    + intros [i Hi]. unfold Sudoku.cell in Hi.
      destruct (Sudoku._symbols self !! i) as [row'|] eqn:Hrow'; [|done].
      destruct (Forall2_lookup_l _ _ _ _ _ Hcol Hrow') as (v & Hv & Hrv).
      exists i. congruence.
  - intros y. rewrite elem_of_list_to_set.
    assert (y ∈ vs <-> Ok y ∈ l) as ->.
    { rewrite Hvs, list_elem_of_fmap. split.
      - intros Hy. by exists y.
      - by intros (y' & [= ->] & Hy). }
    rewrite Hl. split.
    + intros (i & j & Hi & Hj & Hf). symmetry in Hf.
      apply item_item_cell in Hf.
      exists (r / k * k + i), (c / k * k + j). split_and!; [| |done].
      * apply same_block; [done|]. by exists i.
      * apply same_block; [done|]. by exists j.
    + intros (i & j & (di & Hdi & ->)%same_block & (dj & Hdj & ->)%same_block
              & Hcell); [|done..].
      exists di, dj. split_and!; [done|done|].
      symmetry. by apply item_item_cell.
Qed.

(** X9. On a grid of the precondition ([n = k * k] rows of [n] symbols)
    the three set helpers raise nothing for a position inside the grid,
    and return exactly: the symbols of row [r]; the symbols of column [c];
    the symbols of the [k] by [k] block that holds [(r, c)]. *)
Theorem symbol_sets_spec (self : Sudoku.SudokuPuzzle) (k r c : nat) :
  Sudoku.well_formed self k ->
  r < Sudoku._n self -> c < Sudoku._n self ->
  ∃ A B C,
    Sudoku._row_set self r = Ok A
    ∧ Sudoku._column_set self c = Ok B
    ∧ Sudoku._subsquare_set self r c = Ok C
    ∧ (∀ y, y ∈ A <-> ∃ j, Sudoku.cell self r j = Some y)
    ∧ (∀ y, y ∈ B <-> ∃ i, Sudoku.cell self i c = Some y)
    ∧ (∀ y, y ∈ C <->
         ∃ i j, i / k = r / k ∧ j / k = c / k
                ∧ Sudoku.cell self i j = Some y).
Proof. apply symbol_sets_exact. Qed.

Lemma symbol_sets_spec_witness :
  Sudoku.well_formed solved_grid 2
  ∧ ∃ A B C,
      Sudoku._row_set solved_grid 1 = Ok A
      ∧ Sudoku._column_set solved_grid 2 = Ok B
      ∧ Sudoku._subsquare_set solved_grid 1 2 = Ok C
      ∧ (∀ y, y ∈ A <-> ∃ j, Sudoku.cell solved_grid 1 j = Some y)
      ∧ (∀ y, y ∈ B <-> ∃ i, Sudoku.cell solved_grid i 2 = Some y)
      ∧ (∀ y, y ∈ C <->
           ∃ i j, i / 2 = 1 / 2 ∧ j / 2 = 2 / 2
                  ∧ Sudoku.cell solved_grid i j = Some y).
Proof.
  assert (Sudoku.well_formed solved_grid 2) as Hwf.
  { split_and!; [lia|reflexivity|reflexivity|repeat constructor]. }
  split; [exact Hwf|].
  apply (symbol_sets_spec solved_grid 2 1 2 Hwf); simpl; lia.
Defined.

(** ** The solvers on SudokuPuzzle *)

Section SudokuSearch.
Variable str : Sudoku.SudokuPuzzle -> result string.

Lemma sudoku_first_iteration
    (popf : list (PuzzleNode Sudoku.SudokuPuzzle) ->
            result (PuzzleNode Sudoku.SudokuPuzzle
                    * list (PuzzleNode Sudoku.SudokuPuzzle)))
    (skip : gset string -> Sudoku.SudokuPuzzle -> result bool)
    (self : Sudoku.SudokuPuzzle) (fuel : nat) :
  popf [PuzzleNode_of self] = Ok (PuzzleNode_of self, []) ->
  Effectful.while_loop (Pz := sudoku_puzzle str) popf skip (S fuel) ∅
    [PuzzleNode_of self]
  = if Sudoku.any_star (Sudoku._symbols self)
    then Some (Raise UnboundLocalError)
    else Effectful.while_loop (Pz := sudoku_puzzle str) popf skip fuel ∅ [].
Proof.
  intros Hpop. simpl. rewrite Hpop. simpl.
  unfold Sudoku.extensions.
  by destruct (Sudoku.any_star (Sudoku._symbols self)).
Qed.

Lemma sudoku_run
    (popf : list (PuzzleNode Sudoku.SudokuPuzzle) ->
            result (PuzzleNode Sudoku.SudokuPuzzle
                    * list (PuzzleNode Sudoku.SudokuPuzzle)))
    (skip : gset string -> Sudoku.SudokuPuzzle -> result bool)
    (self : Sudoku.SudokuPuzzle) (fuel : nat) :
  popf [PuzzleNode_of self] = Ok (PuzzleNode_of self, []) ->
  Effectful.while_loop (Pz := sudoku_puzzle str) popf skip fuel ∅
    [PuzzleNode_of self]
  = match fuel with
    | 0 => None
    | S fuel' =>
      if Sudoku.any_star (Sudoku._symbols self)
      then Some (Raise UnboundLocalError)
      else match fuel' with
           | 0 => None
           | S _ => NotFound
           end
    end.
Proof.
  intros Hpop. destruct fuel as [|fuel]; [done|].
  rewrite sudoku_first_iteration by done.
  destruct (Sudoku.any_star (Sudoku._symbols self)); [done|].
  by destruct fuel.
Qed.

(** X10. The solvers never solve a [SudokuPuzzle]: on a grid with an
    empty cell the first call of [extensions()] raises
    [UnboundLocalError], which leaves the solver; on a grid without empty
    cell there is nothing to explore and the solver returns [None], solved
    or not. No run returns a node. *)
Theorem sudoku_never_solved (self : Sudoku.SudokuPuzzle) :
  ((∃ row, row ∈ Sudoku._symbols self ∧ "*"%string ∈ row) ->
   ∀ fuel,
     Effectful.depth_first_solve (Pz := sudoku_puzzle str) (S fuel) self
       = Some (Raise UnboundLocalError)
     ∧ Effectful.breadth_first_solve (Pz := sudoku_puzzle str) (S fuel) self
       = Some (Raise UnboundLocalError))
  ∧ ((∀ row, row ∈ Sudoku._symbols self -> "*"%string ∉ row) ->
     ∀ fuel,
       Effectful.depth_first_solve (Pz := sudoku_puzzle str) (S (S fuel)) self
         = NotFound
       ∧ Effectful.breadth_first_solve (Pz := sudoku_puzzle str)
           (S (S fuel)) self
         = NotFound)
  ∧ (∀ fuel n,
       Effectful.depth_first_solve (Pz := sudoku_puzzle str) fuel self
         ≠ Found n
       ∧ Effectful.breadth_first_solve (Pz := sudoku_puzzle str) fuel self
         ≠ Found n).
Proof.
  unfold Effectful.depth_first_solve, Effectful.breadth_first_solve.
  split_and!.
  - intros Hstar%any_star_spec fuel.
    rewrite !sudoku_run by done. by rewrite Hstar.
  - intros Hnone%any_star_false fuel.
    rewrite !sudoku_run by done. by rewrite Hnone.
  - intros fuel n. rewrite !sudoku_run by done.
    destruct fuel as [|[|fuel]];
      destruct (Sudoku.any_star (Sudoku._symbols self)); done.
Qed.
End SudokuSearch.

Lemma sudoku_never_solved_witness :
  (∃ row, row ∈ Sudoku._symbols doctest_grid ∧ "*"%string ∈ row)
  ∧ Effectful.depth_first_solve (Pz := sudoku_puzzle (fun _ => Ok ""%string))
      1 doctest_grid
    = Some (Raise UnboundLocalError)
  ∧ Effectful.breadth_first_solve (Pz := sudoku_puzzle (fun _ => Ok ""%string))
      1 doctest_grid
    = Some (Raise UnboundLocalError).
Proof.
  assert (∃ row, row ∈ Sudoku._symbols doctest_grid ∧ "*"%string ∈ row)
    as Hstar.
  { exists ["D"; "C"; "B"; "*"]%string. split.
    - simpl. do 3 apply list_elem_of_further. apply list_elem_of_here.
    - do 3 apply list_elem_of_further. apply list_elem_of_here. }
  split; [exact Hstar|].
  exact (proj1 (sudoku_never_solved (fun _ => Ok ""%string) doctest_grid)
           Hstar 0).
Defined.

(** ** Methods that never raise *)

Section Lift.
Context {P : Type} {Pz : Puzzle P}.

Lemma lift_dfs_body seen work (ext : P) :
  Effectful.body (Pz := lift Pz)
    (Effectful.dfs_skip (Pz := lift Pz)) seen work ext
  = Ok (dfs_body seen work ext).
Proof.
  unfold Effectful.body, Effectful.dfs_skip, dfs_body, dfs_skip. simpl.
  destruct (is_solved ext); [done|]. simpl.
  destruct (fail_fast ext); [done|]. simpl.
  by destruct (bool_decide (__str__ ext ∈ seen)).
Qed.

Lemma lift_bfs_body seen work (ext : P) :
  Effectful.body (Pz := lift Pz)
    (Effectful.bfs_skip (Pz := lift Pz)) seen work ext
  = Ok (bfs_body seen work ext).
Proof.
  unfold Effectful.body, Effectful.bfs_skip, bfs_body, bfs_skip. simpl.
  destruct (is_solved ext); [done|]. simpl.
  destruct (fail_fast ext); [done|]. simpl.
  destruct (bool_decide (__str__ ext ∈ seen)); [done|]. simpl.
  by destruct (extensions ext).
Qed.

Lemma lift_dfs_for exts seen work :
  Effectful.for_loop (Pz := lift Pz)
    (Effectful.dfs_skip (Pz := lift Pz)) exts seen work
  = Ok (dfs_for exts seen work).
Proof.
  revert seen work. induction exts as [|e exts IH]; intros seen work; [done|].
  simpl. rewrite lift_dfs_body. destruct (dfs_body seen work e); [|done].
  apply IH.
Qed.

Lemma lift_bfs_for exts seen work :
  Effectful.for_loop (Pz := lift Pz)
    (Effectful.bfs_skip (Pz := lift Pz)) exts seen work
  = Ok (bfs_for exts seen work).
Proof.
  revert seen work. induction exts as [|e exts IH]; intros seen work; [done|].
  simpl. rewrite lift_bfs_body. destruct (bfs_body seen work e); [|done].
  apply IH.
Qed.

(** The two embeddings agree: when no method of the puzzle raises, the
    solvers that let exceptions through are the solvers of the first
    part, with the same result for the same fuel. *)
Lemma lift_solvers (fuel : nat) (s : P) :
  Effectful.depth_first_solve (Pz := lift Pz) fuel s = depth_first_solve fuel s
  ∧ Effectful.breadth_first_solve (Pz := lift Pz) fuel s
    = breadth_first_solve fuel s.
Proof.
  unfold Effectful.depth_first_solve, Effectful.breadth_first_solve,
    depth_first_solve, breadth_first_solve.
  generalize (∅ : gset string). generalize [PuzzleNode_of s].
  intros work seen. split.
  - revert seen work. induction fuel as [|fuel IH]; intros seen work; [done|].
    simpl. destruct (0 <? length work); [|done].
    destruct (pop work) as [[item rest]|]; [|done].
    destruct (puzzle item); [|done].
    rewrite lift_dfs_for. destruct (dfs_for _ _ _); [apply IH|done].
  - revert seen work. induction fuel as [|fuel IH]; intros seen work; [done|].
    simpl. destruct (0 <? length work); [|done].
    destruct (pop0 work) as [[item rest]|]; [|done].
    destruct (puzzle item); [|done].
    rewrite lift_bfs_for. destruct (bfs_for _ _ _); [apply IH|done].
Qed.
End Lift.

(** ** Breadth-first search returns a shallowest solution *)

Section Shallowest.
Context {P : Type} {Pz : Puzzle P}.

Lemma open_chain_n_reachable (s : P) d p : open_chain_n s d p -> reachable s p.
Proof.
  induction 1 as [|d p e _ IH He _]; [constructor|]. by apply (reach_ext _ p).
Qed.

Lemma explored_unsolved s seen work expanded p e :
  explored bfs_dead_end s seen work expanded ->
  p ∈ expanded -> e ∈ extensions p -> is_solved e = false.
Proof. intros (_ & Hdone & _) Hp He. by apply (Hdone p Hp). Qed.

(** An extension of an expanded state that is neither pruned nor a dead
    end is itself expanded or waiting. *)
Lemma explored_extension s seen work expanded p e :
  collision_free s ->
  explored bfs_dead_end s seen work expanded ->
  p ∈ expanded -> e ∈ extensions p -> fail_fast e = false ->
  extensions e ≠ [] ->
  e ∈ expanded ∨ PuzzleNode_of e ∈ work.
Proof.
  intros Hinj (Hwork & Hdone & Hseen & _) Hp He Hff Hexts.
  destruct (Hdone p Hp) as [Hreach Hall].
  destruct (Hall e He) as [_ [Hwhy|[Hwhy|Hwhy]]]; [congruence| |].
  - by apply bfs_dead_end_spec in Hwhy.
  - destruct (Hseen _ Hwhy) as (q & Hstr & Hq).
    assert (reachable s q) as Hrq.
    { destruct Hq as [Hq|Hq]; [by apply (Hdone q Hq)|].
      rewrite Forall_forall in Hwork.
      destruct (Hwork _ Hq) as (q' & ->%PuzzleNode_of_inj & Hq'). done. }
    assert (q = e) as ->; [|done].
    apply Hinj; [done| |done]. by apply (reach_ext _ p).
Qed.

Lemma bfs_levels_found s fuel seen front back expanded d n :
  collision_free s ->
  explored bfs_dead_end s seen (front ++ back) expanded ->
  levels s d front back expanded ->
  search_while pop0 bfs_dead_end fuel seen (front ++ back) = Found n ->
  ∃ d0 p e,
    n = PuzzleNode_of e
    ∧ open_chain_n s d0 p ∧ e ∈ extensions p ∧ is_solved e = true
    ∧ ∀ d' p' e',
        open_chain_n s d' p' -> e' ∈ extensions p' -> is_solved e' = true ->
        d0 ≤ d'.
Proof.
  intros Hinj. revert seen front back expanded d.
  induction fuel as [|fuel IH];
    intros seen front back expanded d Hexp (Hfront & Hback & Hempty & Hlev);
    [done|].
  destruct front as [|item front].
  { rewrite (Hempty eq_refl). done. }
  apply Forall_cons in Hfront as [(p & -> & Hp) Hfront].
  simpl.
  destruct (search_for bfs_dead_end (extensions p) seen (front ++ back))
    as [seen' work'|m] eqn:Hfor.
  - intros Hrun.
    pose proof (explored_step pop0 bfs_dead_end pop0_removal
                  (fun e => proj1 (bfs_dead_end_spec e)) s seen
                  (PuzzleNode_of p :: front ++ back) expanded p
                  (front ++ back) seen' work' Hexp eq_refl Hfor) as Hexp'.
    apply search_for_next_open in Hfor as (new & -> & Hnew).
    assert (Forall (wraps (open_chain_n s (S d))) (PuzzleNode_of <$> new))
      as Hnewlev.
    { apply Forall_fmap, Forall_forall. intros e He. exists e. split; [done|].
      destruct (Hnew e He). by apply (open_chain_succ s d p). }
    assert (∀ d' y, open_chain_n s d' y -> extensions y ≠ [] -> d' < d ->
              y ∈ p :: expanded) as Hbelow.
    { intros d' y Hy Hexts Hlt. apply list_elem_of_further.
      by apply (Hlev d' y). }
    assert (∀ y, open_chain_n s d y -> extensions y ≠ [] ->
              y ∈ p :: expanded ∨ PuzzleNode_of y ∈ front) as Hat.
    { intros y Hy Hexts.
      destruct (proj2 (Hlev d y Hy Hexts) eq_refl) as [Hin|Hin].
      - left. by apply list_elem_of_further.
      - apply elem_of_cons in Hin as [->%PuzzleNode_of_inj|Hin].
        + left. apply list_elem_of_here.
        + by right. }
    destruct front as [|item' front].
    + (* the last state of depth [d] is expanded: the queue is one level
         deeper *)
      simpl in *. rewrite <- (app_nil_r (back ++ _)) in Hrun, Hexp'.
      apply (IH _ _ _ _ (S d) Hexp'); [|done].
      split_and!; [by apply Forall_app|constructor|done|].
      intros d' y Hy Hexts. split.
      * intros Hlt. destruct (decide (d' = d)) as [->|Hne].
        -- destruct (Hat y Hy Hexts) as [Hin|Hin]; [done|].
           by apply elem_of_nil in Hin.
        -- apply (Hbelow d' y); [done|done|lia].
      * intros ->. inversion Hy as [|? q ? Hq Hyq Hff]; subst.
        assert (q ∈ p :: expanded) as Hqin.
        { destruct (Hat q Hq) as [Hin|Hin]; [|done|by apply elem_of_nil in Hin].
          intros Hnil. rewrite Hnil in Hyq. by apply elem_of_nil in Hyq. }
        rewrite app_nil_r in Hexp'.
        by apply (explored_extension s _ _ _ q y Hinj Hexp').
    + rewrite <- app_assoc in Hrun, Hexp'.
      apply (IH _ _ _ _ d Hexp'); [|done].
      split_and!; [done|by apply Forall_app|done|].
      intros d' y Hy Hexts. split.
      * by apply Hbelow.
      * intros ->. by apply Hat.
  - intros [= <-].
    apply search_for_return in Hfor as (pre & e & post & Hexts & _ & He & ->).
    exists d, p, e. split_and!; [done|done| |done|].
    + rewrite Hexts. apply elem_of_app. right. apply list_elem_of_here.
    + intros d' p' e' Hp' He' Hsolved.
      destruct (decide (d ≤ d')) as [|Hlt]; [done|]. exfalso.
      assert (p' ∈ expanded) as Hin.
      { apply (Hlev d' p'); [done| |lia].
        intros Hnil. rewrite Hnil in He'. by apply elem_of_nil in He'. }
      pose proof (explored_unsolved _ _ _ _ _ _ Hexp Hin He'). congruence.
Qed.

(** X12. With collision-free canonical strings, a solution that
    [breadth_first_solve] returns is a shallowest one: it is an extension
    of a state [d] unpruned extensions away from the initial state, and
    no state fewer than [d] unpruned extensions away has a solved
    extension. *)
Theorem bfs_returns_shallowest (s : P) (fuel : nat) (n : PuzzleNode P) :
  collision_free s ->
  breadth_first_solve fuel s = Found n ->
  ∃ d p e,
    n = PuzzleNode_of e
    ∧ open_chain_n s d p ∧ e ∈ extensions p ∧ is_solved e = true
    ∧ ∀ d' p' e',
        open_chain_n s d' p' -> e' ∈ extensions p' -> is_solved e' = true ->
        d ≤ d'.
Proof.
  intros Hinj Hrun. unfold breadth_first_solve in Hrun.
  rewrite bfs_while_search in Hrun.
  apply (bfs_levels_found s fuel ∅ [PuzzleNode_of s] [] [] 0 n Hinj);
    [| |done].
  - split_and!; [apply initial_work| | |].
    + intros q Hq. by apply elem_of_nil in Hq.
    + intros k Hk. by apply not_elem_of_empty in Hk.
    + right. apply list_elem_of_here.
  - split_and!; [|constructor|done|].
    + repeat constructor. exists s. split; [done|constructor].
    + intros d' y Hy Hexts. split; [lia|].
      intros ->. inversion Hy; subst. right. apply list_elem_of_here.
Qed.
End Shallowest.

Lemma bfs_returns_shallowest_witness :
  collision_free (Pz := counter_puzzle 5) 0
  ∧ breadth_first_solve (Pz := counter_puzzle 5) 10 0 = Found (PuzzleNode_of 5)
  ∧ ∃ d p e,
      PuzzleNode_of 5 = PuzzleNode_of e
      ∧ open_chain_n (Pz := counter_puzzle 5) 0 d p
      ∧ e ∈ extensions (Puzzle := counter_puzzle 5) p
      ∧ is_solved (Puzzle := counter_puzzle 5) e = true
      ∧ ∀ d' p' e',
          open_chain_n (Pz := counter_puzzle 5) 0 d' p' ->
          e' ∈ extensions (Puzzle := counter_puzzle 5) p' ->
          is_solved (Puzzle := counter_puzzle 5) e' = true ->
          d ≤ d'.
Proof.
  split; [apply counter_collision_free|]. split; [exact counter_bfs|].
  exact (bfs_returns_shallowest (Pz := counter_puzzle 5) 0 10 (PuzzleNode_of 5)
           (counter_collision_free 5) counter_bfs).
Defined.

(** Depth-first search has no such guarantee. *)
Example dfs_returns_deeper :
  breadth_first_solve (Pz := two_depths_puzzle) 10 0 = Found (PuzzleNode_of 3)
  ∧ depth_first_solve (Pz := two_depths_puzzle) 10 0 = Found (PuzzleNode_of 5).
Proof. split; by vm_compute. Qed.

(** ** SudokuPuzzle: no exception on the grids of the precondition *)

Lemma position_ok_total (self : Sudoku.SudokuPuzzle) (k i j : nat) :
  Sudoku.well_formed self k ->
  i < Sudoku._n self -> j < Sudoku._n self ->
  ∃ b, Sudoku.position_ok self i j = Ok b.
Proof.
  intros Hwf Hi Hj.
  destruct (symbol_sets_exact self k i j Hwf Hi Hj)
    as (A & B & C & HA & HB & HC & _).
  unfold Sudoku.position_ok. rewrite HA. simpl.
  case_bool_decide; [|by eauto]. rewrite HB. simpl.
  case_bool_decide; [|by eauto]. rewrite HC. simpl. by eauto.
Qed.

Lemma position_stuck_total (self : Sudoku.SudokuPuzzle) (k i j : nat) :
  Sudoku.well_formed self k ->
  i < Sudoku._n self -> j < Sudoku._n self ->
  ∃ b, Sudoku.position_stuck self i j = Ok b.
Proof.
  intros Hwf Hi Hj.
  destruct (symbol_sets_exact self k i j Hwf Hi Hj)
    as (A & B & C & HA & HB & HC & _).
  destruct (well_formed_cell self k i j Hwf Hi Hj) as [x Hx].
  unfold Sudoku.cell in Hx.
  destruct (Sudoku._symbols self !! i) as [row|] eqn:Hrow; [|done].
  unfold Sudoku.position_stuck.
  rewrite (proj2 (item_Ok _ _ _) Hrow). simpl.
  rewrite (proj2 (item_Ok _ _ _) Hx). simpl.
  case_bool_decide; [|by eauto].
  rewrite HA. simpl. rewrite HB. simpl. rewrite HC. simpl. by eauto.
Qed.

Lemma first_stuck_total (self : Sudoku.SudokuPuzzle) (ps : list (nat * nat)) :
  (∀ i j, (i, j) ∈ ps -> ∃ b, Sudoku.position_stuck self i j = Ok b) ->
  ∃ b, Sudoku.first_stuck self ps = Ok b.
Proof.
  induction ps as [|[i j] ps IH]; intros Hall; simpl; [by eauto|].
  destruct (Hall i j) as [[|] ->]; [apply list_elem_of_here|by eauto|].
  apply IH. intros i' j' Hin. apply Hall. by apply list_elem_of_further.
Qed.

(** X14. On a grid of the precondition ([n = k * k] rows of [n] symbols,
    [k > 0]) [is_solved()] and [fail_fast()] return a boolean: no index
    is out of range. *)
Theorem well_formed_never_raises (self : Sudoku.SudokuPuzzle) (k : nat) :
  Sudoku.well_formed self k ->
  (∃ b, Sudoku.is_solved self = Ok b) ∧ (∃ b, Sudoku.fail_fast self = Ok b).
Proof.
  intros Hwf. split.
  - unfold Sudoku.is_solved.
    destruct (Sudoku.any_star (Sudoku._symbols self)); simpl; [by eauto|].
    set (l := (i ← seq 0 (Sudoku._n self);
               (fun j => Sudoku.position_ok self i j)
                 <$> seq 0 (Sudoku._n self))).
    destruct (sequence_total l) as [vs Hvs].
    + apply Forall_forall. intros r. unfold l.
      rewrite list_elem_of_bind. setoid_rewrite list_elem_of_fmap.
      setoid_rewrite elem_of_seq.
      intros (i & (j & -> & Hj) & Hi).
      apply (position_ok_total self k); [done|lia|lia].
    + rewrite (proj2 (sequence_Ok l vs) Hvs). simpl. by eauto.
  - apply first_stuck_total. intros i j [Hi Hj]%positions_spec.
    by apply (position_stuck_total self k).
Qed.

Lemma well_formed_never_raises_witness :
  Sudoku.well_formed stuck_grid 2
  ∧ (∃ b, Sudoku.is_solved stuck_grid = Ok b)
  ∧ (∃ b, Sudoku.fail_fast stuck_grid = Ok b).
Proof.
  assert (Sudoku.well_formed stuck_grid 2) as Hwf.
  { split_and!; [lia|reflexivity|reflexivity|repeat constructor]. }
  split; [exact Hwf|].
  exact (well_formed_never_raises stuck_grid 2 Hwf).
Defined.

(** The size must be a square: on a filled 3 by 3 grid the subsquare of
    the last row reaches past the grid. *)
Example not_square_raises :
  Sudoku.is_solved
    (Sudoku.mkSudokuPuzzle 3
       [["A"; "B"; "C"]; ["B"; "C"; "A"]; ["C"; "A"; "B"]]%string
       (list_to_set ["A"; "B"; "C"]%string))
  = Raise IndexError.
Proof. by vm_compute. Qed.

(** ** The solvers raise nothing of their own *)

Section Propagation.
Context {P : Type} {Pz : Effectful.Puzzle P}.

Lemma dfs_skip_raise seen (ext : P) e :
  Effectful.dfs_skip seen ext = Raise e -> raised_by_method e.
Proof.
  unfold Effectful.dfs_skip.
  destruct (Effectful.fail_fast ext) as [[|]|e'] eqn:Hff; simpl; [done| |].
  - destruct (Effectful.__str__ ext) as [k|e'] eqn:Hstr; simpl.
    + by case_bool_decide.
    + intros [= ->]. exists ext. auto.
  - intros [= ->]. exists ext. auto.
Qed.

Lemma bfs_skip_raise seen (ext : P) e :
  Effectful.bfs_skip seen ext = Raise e -> raised_by_method e.
Proof.
  unfold Effectful.bfs_skip.
  destruct (Effectful.fail_fast ext) as [[|]|e'] eqn:Hff; simpl; [done| |].
  - destruct (Effectful.__str__ ext) as [k|e'] eqn:Hstr; simpl.
    + case_bool_decide; [done|].
      destruct (Effectful.extensions ext) as [exts|e'] eqn:Hexts; simpl; [done|].
      intros [= ->]. exists ext. auto.
    + intros [= ->]. exists ext. auto.
  - intros [= ->]. exists ext. auto.
Qed.

Section Loop.
Variable popf :
  list (PuzzleNode P) -> result (PuzzleNode P * list (PuzzleNode P)).
Variable skip : gset string -> P -> result bool.
Hypothesis popf_removal : removal popf.
Hypothesis skip_raise :
  ∀ seen ext e, skip seen ext = Raise e -> raised_by_method e.

Lemma body_outcome seen work (ext : P) :
  match Effectful.body skip seen work ext with
  | Raise e => raised_by_method e
  | Ok (Return n) => True
  | Ok (Next seen' work') => Forall (wraps (fun _ => True)) work ->
                             Forall (wraps (fun _ => True)) work'
  end.
Proof.
  unfold Effectful.body.
  destruct (Effectful.is_solved ext) as [[|]|e] eqn:Hsolved; simpl;
    [done| |exists ext; auto].
  destruct (skip seen ext) as [[|]|e] eqn:Hskip; simpl;
    [done| |by apply (skip_raise seen ext)].
  destruct (Effectful.__str__ ext) as [k|e] eqn:Hstr; simpl;
    [|exists ext; auto].
  intros Hwork. apply Forall_app. split; [done|].
  repeat constructor. by exists ext.
Qed.

Lemma for_loop_outcome exts seen work :
  match Effectful.for_loop skip exts seen work with
  | Raise e => raised_by_method e
  | Ok (Return n) => True
  | Ok (Next seen' work') => Forall (wraps (fun _ => True)) work ->
                             Forall (wraps (fun _ => True)) work'
  end.
Proof.
  revert seen work. induction exts as [|ext exts IH]; intros seen work; simpl;
    [done|].
  pose proof (body_outcome seen work ext) as Hbody.
  destruct (Effectful.body skip seen work ext) as [[seen' work'|n]|e];
    [|done|done].
  specialize (IH seen' work').
  destruct (Effectful.for_loop skip exts seen' work') as [[seen'' work''|n]|e];
    auto.
Qed.

Lemma while_loop_raise fuel seen work e :
  Forall (wraps (fun _ => True)) work ->
  Effectful.while_loop popf skip fuel seen work = Some (Raise e) ->
  raised_by_method e.
Proof.
  revert seen work. induction fuel as [|fuel IH]; intros seen work Hwork; [done|].
  simpl. destruct (0 <? length work) eqn:Hlen; [|done].
  apply Nat.ltb_lt in Hlen.
  destruct (proj2 popf_removal work Hlen) as (item & rest & Hpop).
  rewrite Hpop.
  assert (wraps (fun _ => True) item ∧ Forall (wraps (fun _ => True)) rest)
    as [(p & -> & _) Hrest].
  { apply popf_removal in Hpop. rewrite Hpop in Hwork.
    by apply Forall_cons in Hwork. }
  simpl.
  destruct (Effectful.extensions p) as [exts|e'] eqn:Hexts.
  - pose proof (for_loop_outcome exts seen rest) as Hfor.
    destruct (Effectful.for_loop skip exts seen rest)
      as [[seen' work'|n]|e'].
    + apply IH. by apply Hfor.
    + done.
    + by intros [= <-].
  - intros [= <-]. exists p. auto.
Qed.
End Loop.

(** X13. The solvers raise nothing of their own: an exception that
    leaves [depth_first_solve] or [breadth_first_solve] was raised by a
    call of [is_solved], [extensions], [fail_fast] or [__str__] of the
    puzzle. *)
Theorem solver_exceptions_come_from_methods (s : P) (fuel : nat) (e : exn) :
  Effectful.depth_first_solve fuel s = Some (Raise e)
  ∨ Effectful.breadth_first_solve fuel s = Some (Raise e) ->
  raised_by_method e.
Proof.
  assert (Forall (wraps (fun _ : P => True)) [PuzzleNode_of s]) as Hwork.
  { repeat constructor. by exists s. }
  intros [Hrun|Hrun].
  - apply (while_loop_raise pop Effectful.dfs_skip pop_removal dfs_skip_raise
             fuel ∅ [PuzzleNode_of s] e Hwork Hrun).
  - apply (while_loop_raise pop0 Effectful.bfs_skip pop0_removal bfs_skip_raise
             fuel ∅ [PuzzleNode_of s] e Hwork Hrun).
Qed.
End Propagation.

Lemma solver_exceptions_witness :
  (Effectful.depth_first_solve (Pz := sudoku_puzzle (fun _ => Ok ""%string))
     1 doctest_grid
   = Some (Raise UnboundLocalError)
   ∨ Effectful.breadth_first_solve
       (Pz := sudoku_puzzle (fun _ => Ok ""%string)) 1 doctest_grid
     = Some (Raise UnboundLocalError))
  ∧ raised_by_method (Pz := sudoku_puzzle (fun _ => Ok ""%string))
      UnboundLocalError.
Proof.
  assert (Effectful.depth_first_solve
            (Pz := sudoku_puzzle (fun _ => Ok ""%string)) 1 doctest_grid
          = Some (Raise UnboundLocalError)
          ∨ Effectful.breadth_first_solve
              (Pz := sudoku_puzzle (fun _ => Ok ""%string)) 1 doctest_grid
            = Some (Raise UnboundLocalError)) as Hrun.
  { left. by vm_compute. }
  split; [exact Hrun|].
  exact (solver_exceptions_come_from_methods
           (Pz := sudoku_puzzle (fun _ => Ok ""%string))
           doctest_grid 1 UnboundLocalError Hrun).
Defined.

(** ** Breadth-first search is complete on unbounded graphs *)

Section Unbounded.
Context {P : Type} {Pz : Puzzle P}.

Lemma open_chain_n_open_chain (s : P) d p : open_chain_n s d p -> open_chain s p.
Proof.
  induction 1 as [|d p e _ IH He Hff]; [by left|].
  by apply (open_chain_snoc s p).
Qed.

Lemma open_path_depth (s a b : P) d :
  open_chain_n s d a -> open_path a b -> ∃ d', open_chain_n s d' b.
Proof.
  intros Ha Hpath. revert d Ha.
  induction Hpath as [a b Hb Hff|a c b Hc Hff _ IH]; intros d Ha.
  - exists (S d). by apply (open_chain_succ s d a).
  - apply (IH (S d)). by apply (open_chain_succ s d a).
Qed.

Lemma open_chain_depth (s p : P) : open_chain s p -> ∃ d, open_chain_n s d p.
Proof.
  intros [<-|Hpath].
  - exists 0. constructor.
  - apply (open_path_depth s s p 0); [constructor|done].
Qed.

(** One iteration of the loop of [breadth_first_solve] that finds no
    solved extension keeps the queue in levels. *)
Lemma levels_step s seen front back expanded d p seen' work' :
  collision_free s ->
  explored bfs_dead_end s seen (PuzzleNode_of p :: front ++ back) expanded ->
  levels s d (PuzzleNode_of p :: front) back expanded ->
  search_for bfs_dead_end (extensions p) seen (front ++ back)
    = Next seen' work' ->
  explored bfs_dead_end s seen' work' (p :: expanded)
  ∧ ∃ back',
      work' = front ++ back'
      ∧ (front ≠ [] -> levels s d front back' (p :: expanded))
      ∧ (front = [] -> levels s (S d) back' [] (p :: expanded)).
Proof.
  intros Hinj Hexp (Hfront & Hback & _ & Hlev) Hfor.
  apply Forall_cons in Hfront as [(p0 & <-%PuzzleNode_of_inj & Hp) Hfront].
  pose proof (explored_step pop0 bfs_dead_end pop0_removal
                (fun e => proj1 (bfs_dead_end_spec e)) s seen
                (PuzzleNode_of p :: front ++ back) expanded p
                (front ++ back) seen' work' Hexp eq_refl Hfor) as Hexp'.
  split; [done|].
  apply search_for_next_open in Hfor as (new & -> & Hnew).
  exists (back ++ (PuzzleNode_of <$> new)).
  assert (Forall (wraps (open_chain_n s (S d))) (back ++ (PuzzleNode_of <$> new)))
    as Hback'.
  { apply Forall_app. split; [done|].
    apply Forall_fmap, Forall_forall. intros e He. exists e. split; [done|].
    destruct (Hnew e He). by apply (open_chain_succ s d p). }
  assert (∀ d' y, open_chain_n s d' y -> extensions y ≠ [] -> d' < d ->
            y ∈ p :: expanded) as Hbelow.
  { intros d' y Hy Hexts Hlt. apply list_elem_of_further.
    by apply (Hlev d' y). }
  assert (∀ y, open_chain_n s d y -> extensions y ≠ [] ->
            y ∈ p :: expanded ∨ PuzzleNode_of y ∈ front) as Hat.
  { intros y Hy Hexts.
    destruct (proj2 (Hlev d y Hy Hexts) eq_refl) as [Hin|Hin].
    - left. by apply list_elem_of_further.
    - apply elem_of_cons in Hin as [->%PuzzleNode_of_inj|Hin].
      + left. apply list_elem_of_here.
      + by right. }
  split_and!.
  - by rewrite app_assoc.
  - intros Hne. split_and!; [done|done|done|].
    intros d' y Hy Hexts. split; [by apply Hbelow|].
    intros ->. by apply Hat.
  - intros ->. split_and!; [done|constructor|done|].
    intros d' y Hy Hexts. split.
    + intros Hlt. destruct (decide (d' = d)) as [->|Hne].
      * destruct (Hat y Hy Hexts) as [Hin|Hin]; [done|].
        by apply elem_of_nil in Hin.
      * apply (Hbelow d' y); [done|done|lia].
    + intros ->. inversion Hy as [|? q ? Hq Hyq Hff]; subst.
      assert (q ∈ p :: expanded) as Hqin.
      { destruct (Hat q Hq) as [Hin|Hin]; [|done|by apply elem_of_nil in Hin].
        intros Hnil. rewrite Hnil in Hyq. by apply elem_of_nil in Hyq. }
      rewrite <- app_assoc in Hexp'. simpl in Hexp'.
      by apply (explored_extension s _ _ _ q y Hinj Hexp').
Qed.

(** With an empty queue every state that has extensions and is reached
    through unpruned extensions is expanded. *)
Lemma explored_everything s seen expanded d y :
  collision_free s ->
  explored bfs_dead_end s seen [] expanded ->
  open_chain_n s d y -> extensions y ≠ [] -> y ∈ expanded.
Proof.
  intros Hinj Hexp Hy. induction Hy as [|d p e Hp IH He Hff]; intros Hexts.
  - destruct Hexp as (_ & _ & _ & [Hs|Hs]); [done|by apply elem_of_nil in Hs].
  - assert (p ∈ expanded) as Hin.
    { apply IH. intros Hnil. rewrite Hnil in He. by apply elem_of_nil in He. }
    destruct (explored_extension s _ _ _ p e Hinj Hexp Hin He Hff Hexts)
      as [Hdone|Hwait]; [done|by apply elem_of_nil in Hwait].
Qed.

Lemma bfs_progress s dsol psol esol :
  collision_free s ->
  open_chain_n s dsol psol -> esol ∈ extensions psol ->
  is_solved esol = true ->
  ∀ k front seen back expanded d,
    dsol + 1 ≤ d + k ->
    explored bfs_dead_end s seen (front ++ back) expanded ->
    levels s d front back expanded ->
    ∃ fuel n, search_while pop0 bfs_dead_end fuel seen (front ++ back) = Found n.
Proof.
  intros Hinj Hpsol Hesol Hsolved.
  assert (extensions psol ≠ []) as Hnonempty.
  { intros Hnil. rewrite Hnil in Hesol. by apply elem_of_nil in Hesol. }
  assert (∀ seen work expanded,
            explored bfs_dead_end s seen work expanded -> psol ∉ expanded)
    as Hnot.
  { intros seen work expanded Hexp Hin.
    pose proof (explored_unsolved _ _ _ _ _ _ Hexp Hin Hesol). congruence. }
  induction k as [|k IHk].
  - intros front seen back expanded d Hd Hexp (_ & _ & _ & Hlev).
    destruct (Hnot _ _ _ Hexp).
    apply (Hlev dsol psol); [done|done|lia].
  - induction front as [|item front IHfront];
      intros seen back expanded d Hd Hexp Hlevels.
    + destruct Hlevels as (_ & _ & Hempty & _).
      rewrite (Hempty eq_refl) in Hexp. simpl in Hexp.
      destruct (Hnot _ _ _ Hexp).
      by apply (explored_everything s seen expanded dsol psol).
    + pose proof Hlevels as (Hfront & _).
      apply Forall_cons in Hfront as [(p & -> & Hp) _].
      destruct (search_for bfs_dead_end (extensions p) seen (front ++ back))
        as [seen' work'|n] eqn:Hfor.
      * destruct (levels_step s seen front back expanded d p seen' work'
                    Hinj Hexp Hlevels Hfor)
          as (Hexp' & back' & -> & Hsame & Hnext).
        assert (∃ fuel n,
                  search_while pop0 bfs_dead_end fuel seen' (front ++ back')
                  = Found n) as (fuel & n & Hrun).
        { destruct front as [|item' front].
          - simpl in *. rewrite <- (app_nil_r back') in Hexp' |- *.
            apply (IHk back' seen' [] (p :: expanded) (S d));
              [lia|done|by apply Hnext].
          - apply (IHfront seen' back' (p :: expanded) d); [done|done|].
            by apply Hsame. }
        exists (S fuel), n. simpl. by rewrite Hfor.
      * exists 1, n. simpl. by rewrite Hfor.
Qed.

(** X15. [breadth_first_solve] needs no finite graph: with collision-free
    canonical strings it returns a solution whenever a state reached
    through extensions that do not report [fail_fast()] has a solved
    extension. *)
Theorem bfs_complete_unbounded (s : P) :
  collision_free s -> open_solution s ->
  finds_solution breadth_first_solve s.
Proof.
  intros Hinj (p & e & [d Hp]%open_chain_depth & He & Hsolved).
  destruct (bfs_progress s d p e Hinj Hp He Hsolved (d + 1)
              [PuzzleNode_of s] ∅ [] [] 0) as (fuel & n & Hrun).
  - lia.
  - split_and!; [apply initial_work| | |].
    + intros q Hq. by apply elem_of_nil in Hq.
    + intros k Hk. by apply not_elem_of_empty in Hk.
    + right. apply list_elem_of_here.
  - split_and!; [|constructor|done|].
    + repeat constructor. exists s. split; [done|constructor].
    + intros d' y Hy Hexts. split; [lia|].
      intros ->. inversion Hy; subst. right. apply list_elem_of_here.
  - exists fuel, n. unfold breadth_first_solve. by rewrite bfs_while_search.
Qed.
End Unbounded.

Lemma odd_chain_open_solution : open_solution (Pz := odd_chain_puzzle) 0.
Proof.
  exists 2, 4. split_and!; [|set_solver|done].
  right. apply open_last; [set_solver|done].
Qed.

Lemma bfs_complete_unbounded_witness :
  collision_free (Pz := odd_chain_puzzle) 0
  ∧ open_solution (Pz := odd_chain_puzzle) 0
  ∧ finds_solution (breadth_first_solve (Pz := odd_chain_puzzle)) 0.
Proof.
  split; [apply odd_chain_collision_free|].
  split; [exact odd_chain_open_solution|].
  exact (bfs_complete_unbounded (Pz := odd_chain_puzzle) 0
           (odd_chain_collision_free 0) odd_chain_open_solution).
Defined.
